(** * pg_sasl_prepare: decomposition, canonical ordering and the UTF-8 codec

    A shallow embedding of [pg_sasl_prepare/pg_sasl_prepare.c] and the
    properties its specification states about it. *)

From Stdlib Require Import ZArith Lia Sorting.Sorted.
From stdpp Require Import base tactics option list strings.

Local Open Scope Z_scope.

(** ** Outcomes of a call

    A function of the extension either returns, or raises a PostgreSQL
    error ([ereport]/[elog] at level [ERROR]: the statement is aborted and
    the message reported to the client), or faults (a failed [Assert], a
    dereferenced [NULL], an access outside an allocated buffer).
    [OutOfFuel] is the only constructor that is not in the C code: the
    recursive functions below take a bound on their recursion depth and
    the loops a bound on their turns. *)

Inductive outcome (A : Type) : Type :=
| Ok (a : A)
| Error (msg : string)
| Fault
| OutOfFuel.

Arguments Ok {A} a.
Arguments Error {A} msg.
Arguments Fault {A}.
Arguments OutOfFuel {A}.

#[global] Instance outcome_ret : MRet outcome := fun A a => Ok a.

#[global] Instance outcome_bind : MBind outcome := fun A B f m =>
  match m with
  | Ok a => f a
  | Error msg => Error msg
  | Fault => Fault
  | OutOfFuel => OutOfFuel
  end.

(** ** Machine integers

    [uint32] is the value of a C expression converted to [uint32], [int32]
    the value converted to [int32] (two's complement). *)

Definition uint32 (z : Z) : Z := z mod 2 ^ 32.
Definition int32 (z : Z) : Z := (z + 2 ^ 31) mod 2 ^ 32 - 2 ^ 31.

Definition is_uint32 (z : Z) : Prop := 0 ≤ z < 2 ^ 32.
Definition is_int32 (z : Z) : Prop := - 2 ^ 31 ≤ z < 2 ^ 31.

(** ** The decomposition table

    [utf8_table.h] declares the entry type and the table [SASLPrepConv]:
    the code point (its UTF-8 bytes packed in a [uint32]), its combining
    class, and a fixed-size array of decomposition codes, unused slots
    being zero. *)

Record pg_utf_decomposition : Type := {
  utf : Z;
  class : Z;
  codes : list Z
}.

Definition conv_compare (v1 : Z) (p2 : pg_utf_decomposition) : Z :=
  let v2 := utf p2 in
  if v1 >? v2 then 1 else if v1 =? v2 then 0 else -1.

(** [bsearch] of the C library, as glibc writes it: the interval [l, u)
    is halved until it is empty. The interval shrinks at each step, so
    its width bounds the number of steps. *)

Fixpoint bsearch_loop (steps : nat) (key : Z) (base : list pg_utf_decomposition)
    (l u : nat) : option pg_utf_decomposition :=
  match steps with
  | O => None
  | S steps' =>
    if decide (l < u)%nat then
      let idx := ((l + u) / 2)%nat in
      match base !! idx with
      | None => None
      | Some p =>
        let comparison := conv_compare key p in
        if comparison <? 0 then bsearch_loop steps' key base l idx
        else if comparison >? 0 then bsearch_loop steps' key base (S idx) u
        else Some p
      end
    else None
  end.

Definition bsearch (key : Z) (base : list pg_utf_decomposition)
    : option pg_utf_decomposition :=
  bsearch_loop (S (length base)) key base 0 (length base).

(** A few entries in the layout of the generated table, sorted by code:
    the letters a and e, their precomposed forms with a circumflex, an
    acute accent or both, three combining marks, and a musical symbol
    that decomposes into two four-byte code points. *)

Definition sample_table : list pg_utf_decomposition := [
  {| utf := 0x61; class := 0; codes := [0; 0; 0; 0] |};
  {| utf := 0x65; class := 0; codes := [0; 0; 0; 0] |};
  {| utf := 0xC3A2; class := 0; codes := [0x61; 0xCC82; 0; 0] |};
  {| utf := 0xC3A9; class := 0; codes := [0x65; 0xCC81; 0; 0] |};
  {| utf := 0xCC81; class := 230; codes := [0; 0; 0; 0] |};
  {| utf := 0xCC82; class := 230; codes := [0; 0; 0; 0] |};
  {| utf := 0xCCA3; class := 220; codes := [0; 0; 0; 0] |};
  {| utf := 0xE1BAA5; class := 0; codes := [0xC3A2; 0xCC81; 0; 0] |};
  {| utf := 0xF09D8597; class := 0; codes := [0; 0; 0; 0] |};
  {| utf := 0xF09D859E; class := 0; codes := [0xF09D8597; 0xF09D85A5; 0; 0] |};
  {| utf := 0xF09D85A5; class := 216; codes := [0; 0; 0; 0] |}
].

(** ** Buffers *)

(** An [int] buffer and the cursor [*current] into it. A store outside the
    buffer is a fault. *)

Definition store (res : list Z) (i : nat) (v : Z) : outcome (list Z) :=
  if decide (i < length res)%nat then Ok (<[i := v]> res) else Fault.

Definition load (res : list Z) (i : nat) : outcome Z :=
  match res !! i with
  | Some v => Ok v
  | None => Fault
  end.

(** [new_intArrayType]: [palloc0] hands out zeroed memory. The element
    counts ([int] in C) are natural numbers here: an array of PostgreSQL
    stays far below [2^31] elements. *)

Definition new_intArrayType (num : nat) : list Z := replicate num 0.

(** Number of pairs of positions [i < j] holding [l_i > l_j]. *)

Fixpoint below (x : Z) (l : list Z) : nat :=
  match l with
  | [] => 0
  | y :: l' => if y <? x then S (below x l') else below x l'
  end.

Fixpoint inversions (l : list Z) : nat :=
  match l with
  | [] => 0
  | x :: l' => (below x l' + inversions l')%nat
  end.

(** Number of positions [i] holding [l_i > l_(i+1)]. *)

Fixpoint adjacent_inversions (l : list Z) : nat :=
  match l with
  | x :: (y :: _) as l' =>
    if y <? x then S (adjacent_inversions l') else adjacent_inversions l'
  | _ => 0
  end.

(** The bytes of a C string: up to the first zero. *)

Fixpoint until_zero (cs : list Z) : list Z :=
  match cs with
  | [] => []
  | c :: cs' => if c =? 0 then [] else c :: until_zero cs'
  end.

Definition cstring_to_text (s : list Z) : list Z := until_zero s.

(** The buffer [res] after the elements of [l] were stored from index [cur]
    on; in [written] each is converted to [int] first. *)

Definition stored (res : list Z) (cur : nat) (l : list Z) : list Z :=
  take cur res ++ l ++ drop (cur + length l) res.

Definition written (res : list Z) (cur : nat) (l : list Z) : list Z :=
  stored res cur (int32 <$> l).

(** [int16] is the value of a C expression converted to [int16]. *)

Definition int16 (z : Z) : Z := (z + 2 ^ 15) mod 2 ^ 16 - 2 ^ 15.

(** What [utf8_conv_table] reads of its call: [fcinfo->resultinfo], which
    is [NULL] or a node, a [ReturnSetInfo] when the caller takes a set,
    with the return modes it allows; and the class of the declared result
    type, which [get_call_result_type] gives. The constants are those of
    PostgreSQL ([nodes/execnodes.h], [funcapi.h]). *)

Record Node : Type := {
  is_ReturnSetInfo : bool;
  allowedModes : Z
}.

Definition SFRM_Materialize : Z := 0x02.

Inductive TypeFuncClass : Type :=
| TYPEFUNC_SCALAR
| TYPEFUNC_COMPOSITE
| TYPEFUNC_RECORD
| TYPEFUNC_OTHER.

(** A tuple of the result: the code, the class, and the decomposition
    array or [NULL]. *)

Record conv_tuple : Type := {
  tuple_utf : Z;
  tuple_class : Z;
  tuple_decomp : option (list Z)
}.

(** The two loops of [utf8_conv_table] over [entry.codes]: the count of
    the codes before the first zero, and the copy of that many codes into
    the array. *)

Fixpoint count_codes (cs : list Z) (size : nat) : nat :=
  match cs with
  | [] => size
  | c :: cs' => if c =? 0 then size else count_codes cs' (S size)
  end.

Fixpoint copy_codes (turns : nat) (cs : list Z) (count : nat) (decomp : list Z)
    : outcome (list Z) :=
  match turns with
  | O => Ok decomp
  | S turns' =>
    c ← load cs count;
    decomp' ← store decomp count (int32 c);
    copy_codes turns' cs (S count) decomp'
  end.

Definition conv_table_tuple (entry : pg_utf_decomposition) : outcome conv_tuple :=
  let size := count_codes (codes entry) 0 in
  decomp ← (if decide (size = 0)%nat then Ok None
            else
              decomp ← copy_codes size (codes entry) 0 (new_intArrayType size);
              Ok (Some decomp));
  Ok {| tuple_utf := int32 (utf entry);
        tuple_class := int16 (class entry);
        tuple_decomp := decomp |}.

Fixpoint conv_table_tuples (table : list pg_utf_decomposition)
    (tupstore : list conv_tuple) : outcome (list conv_tuple) :=
  match table with
  | [] => Ok tupstore
  | entry :: table' =>
    tuple ← conv_table_tuple entry;
    conv_table_tuples table' (tupstore ++ [tuple])
  end.

(** ** The UTF-8 codec *)

(** A string in memory: [utf] is the list of the bytes from the pointer to
    the terminator, which is not in the list. The terminator reads as
    zero, and so does the memory after it; no result below depends on
    what is read there. This gives the values of the reads, not their
    bounds: a read after the terminator is outside the string, and the
    loops with checked reads, further down, tell when one is made. *)

Definition byte_at (utf : list Z) (i : nat) : Z := nth i utf 0.

(** Modelled from the spec: [pg_utf_mblen] and [pg_utf8_islegal] are the
    routines of PostgreSQL ([mb/pg_wchar.h]) that [utf8_to_array] calls for
    the length of the next unit and for its legality; their code is not in
    the repository. The spec asks of the decoder that each unit be a
    legal, non-overlong encoding of one to four bytes. *)

Definition pg_utf_mblen (s : list Z) : Z :=
  let b := byte_at s 0 in
  if Z.land b 0x80 =? 0 then 1
  else if Z.land b 0xe0 =? 0xc0 then 2
  else if Z.land b 0xf0 =? 0xe0 then 3
  else if Z.land b 0xf8 =? 0xf0 then 4
  else 1.

Definition pg_utf8_islegal (source : list Z) (length : Z) : bool :=
  let case1 :=
    let a := byte_at source 0 in
    if (a >=? 0x80) && (a <? 0xC2) then false
    else if a >? 0xF4 then false
    else true in
  let case2 :=
    let a := byte_at source 1 in
    let lead := byte_at source 0 in
    if lead =? 0xE0 then
      if (a <? 0xA0) || (a >? 0xBF) then false else case1
    else if lead =? 0xED then
      if (a <? 0x80) || (a >? 0x9F) then false else case1
    else if lead =? 0xF0 then
      if (a <? 0x90) || (a >? 0xBF) then false else case1
    else if lead =? 0xF4 then
      if (a <? 0x80) || (a >? 0x8F) then false else case1
    else
      if (a <? 0x80) || (a >? 0xBF) then false else case1 in
  let case3 :=
    let a := byte_at source 2 in
    if (a <? 0x80) || (a >? 0xBF) then false else case2 in
  let case4 :=
    let a := byte_at source 3 in
    if (a <? 0x80) || (a >? 0xBF) then false else case3 in
  if length =? 4 then case4
  else if length =? 3 then case3
  else if length =? 2 then case2
  else if length =? 1 then case1
  else false.

(** [PG_UTF8] identifies UTF-8 among the encodings of PostgreSQL
    ([mb/pg_wchar.h]). *)

Definition PG_UTF8 : Z := 6.

(** First pass of [utf8_to_array]: count the characters, checking each. *)

Fixpoint count_chars (fuel : nat) (utf : list Z) (size : nat) : outcome nat :=
  if byte_at utf 0 =? 0 then Ok size
  else
    match fuel with
    | O => OutOfFuel
    | S fuel' =>
      let l := pg_utf_mblen utf in
      if negb (pg_utf8_islegal utf l) then Error "incorrect utf-8 input"
      else count_chars fuel' (drop (Z.to_nat l) utf) (S size)
    end.

(** The packing of one character of [l] bytes into [iutf], and the
    pointer after it. *)

Definition pack_char (utf : list Z) (l : Z) : outcome (Z * list Z) :=
  if l =? 1 then
    Ok (uint32 (byte_at utf 0), drop 1 utf)
  else if l =? 2 then
    let iutf := uint32 (Z.shiftl (byte_at utf 0) 8) in
    let iutf := Z.lor iutf (uint32 (byte_at utf 1)) in
    Ok (iutf, drop 2 utf)
  else if l =? 3 then
    let iutf := uint32 (Z.shiftl (byte_at utf 0) 16) in
    let iutf := Z.lor iutf (uint32 (Z.shiftl (byte_at utf 1) 8)) in
    let iutf := Z.lor iutf (uint32 (byte_at utf 2)) in
    Ok (iutf, drop 3 utf)
  else if l =? 4 then
    let iutf := uint32 (Z.shiftl (byte_at utf 0) 24) in
    let iutf := Z.lor iutf (uint32 (Z.shiftl (byte_at utf 1) 16)) in
    let iutf := Z.lor iutf (uint32 (Z.shiftl (byte_at utf 2) 8)) in
    let iutf := Z.lor iutf (uint32 (byte_at utf 3)) in
    Ok (iutf, drop 4 utf)
  else Error "incorrect multibyte length %d".

(** Second pass: fill the array. *)

Fixpoint fill_chars (fuel : nat) (utf : list Z) (st : list Z * nat)
    : outcome (list Z * nat) :=
  if byte_at utf 0 =? 0 then Ok st
  else
    match fuel with
    | O => OutOfFuel
    | S fuel' =>
      let l := pg_utf_mblen utf in
      ch ← pack_char utf l;
      res ← store st.1 st.2 (int32 ch.1);
      fill_chars fuel' ch.2 (res, S st.2)
    end.

(** [utf8_to_array]: [input] is the content of the text argument, which
    [text_to_cstring] copies and terminates. Each turn of the two loops
    moves the pointer forward, so the length of the input bounds their
    turns. *)

Definition utf8_to_array (encoding : Z) (input : list Z) : outcome (list Z) :=
  if negb (encoding =? PG_UTF8) then Error "Database encoding is not UTF-8"
  else
    size ← count_chars (length input) input 0;
    let result := new_intArrayType size in
    st ← fill_chars (length input) input (result, 0%nat);
    if decide (st.2 = length result) then Ok st.1 else Fault.

(** *** The reads of [utf8_to_array] *)

(** The same loops with every read of the string checked. Here [utf] is
    the buffer from the pointer to the end of what [text_to_cstring]
    allocated, which is the bytes of the text and the terminator; a read
    outside it is a [Fault]. [utf8_to_array] hands the length [l] that
    [pg_utf_mblen] returns to [pg_utf8_islegal] without comparing it with
    what is left of the string. *)

(** Modelled from the spec: [pg_utf_mblen] and [pg_utf8_islegal] as above,
    their code not being in the repository, with the reads in the order
    in which the routines of PostgreSQL make them: [pg_utf8_islegal] tests
    the bytes of the unit from the last to the first. *)

Definition pg_utf_mblen_checked (s : list Z) : outcome Z :=
  b ← load s 0;
  Ok (if Z.land b 0x80 =? 0 then 1
      else if Z.land b 0xe0 =? 0xc0 then 2
      else if Z.land b 0xf0 =? 0xe0 then 3
      else if Z.land b 0xf8 =? 0xf0 then 4
      else 1).

Definition pg_utf8_islegal_checked (source : list Z) (length : Z)
    : outcome bool :=
  let case1 :=
    a ← load source 0;
    if (a >=? 0x80) && (a <? 0xC2) then Ok false
    else if a >? 0xF4 then Ok false
    else Ok true in
  let case2 :=
    a ← load source 1;
    lead ← load source 0;
    if lead =? 0xE0 then
      if (a <? 0xA0) || (a >? 0xBF) then Ok false else case1
    else if lead =? 0xED then
      if (a <? 0x80) || (a >? 0x9F) then Ok false else case1
    else if lead =? 0xF0 then
      if (a <? 0x90) || (a >? 0xBF) then Ok false else case1
    else if lead =? 0xF4 then
      if (a <? 0x80) || (a >? 0x8F) then Ok false else case1
    else
      if (a <? 0x80) || (a >? 0xBF) then Ok false else case1 in
  let case3 :=
    a ← load source 2;
    if (a <? 0x80) || (a >? 0xBF) then Ok false else case2 in
  let case4 :=
    a ← load source 3;
    if (a <? 0x80) || (a >? 0xBF) then Ok false else case3 in
  if length =? 4 then case4
  else if length =? 3 then case3
  else if length =? 2 then case2
  else if length =? 1 then case1
  else Ok false.

Fixpoint count_chars_checked (fuel : nat) (utf : list Z) (size : nat)
    : outcome nat :=
  b ← load utf 0;
  if b =? 0 then Ok size
  else
    match fuel with
    | O => OutOfFuel
    | S fuel' =>
      l ← pg_utf_mblen_checked utf;
      legal ← pg_utf8_islegal_checked utf l;
      if negb legal then Error "incorrect utf-8 input"
      else count_chars_checked fuel' (drop (Z.to_nat l) utf) (S size)
    end.

Definition pack_char_checked (utf : list Z) (l : Z) : outcome (Z * list Z) :=
  if l =? 1 then
    b0 ← load utf 0;
    Ok (uint32 b0, drop 1 utf)
  else if l =? 2 then
    b0 ← load utf 0;
    let iutf := uint32 (Z.shiftl b0 8) in
    b1 ← load utf 1;
    let iutf := Z.lor iutf (uint32 b1) in
    Ok (iutf, drop 2 utf)
  else if l =? 3 then
    b0 ← load utf 0;
    let iutf := uint32 (Z.shiftl b0 16) in
    b1 ← load utf 1;
    let iutf := Z.lor iutf (uint32 (Z.shiftl b1 8)) in
    b2 ← load utf 2;
    let iutf := Z.lor iutf (uint32 b2) in
    Ok (iutf, drop 3 utf)
  else if l =? 4 then
    b0 ← load utf 0;
    let iutf := uint32 (Z.shiftl b0 24) in
    b1 ← load utf 1;
    let iutf := Z.lor iutf (uint32 (Z.shiftl b1 16)) in
    b2 ← load utf 2;
    let iutf := Z.lor iutf (uint32 (Z.shiftl b2 8)) in
    b3 ← load utf 3;
    let iutf := Z.lor iutf (uint32 b3) in
    Ok (iutf, drop 4 utf)
  else Error "incorrect multibyte length %d".

Fixpoint fill_chars_checked (fuel : nat) (utf : list Z) (st : list Z * nat)
    : outcome (list Z * nat) :=
  b ← load utf 0;
  if b =? 0 then Ok st
  else
    match fuel with
    | O => OutOfFuel
    | S fuel' =>
      l ← pg_utf_mblen_checked utf;
      ch ← pack_char_checked utf l;
      res ← store st.1 st.2 (int32 ch.1);
      fill_chars_checked fuel' ch.2 (res, S st.2)
    end.

(** [input] is the whole buffer here, terminator included. *)

Definition utf8_to_array_checked (encoding : Z) (input : list Z)
    : outcome (list Z) :=
  if negb (encoding =? PG_UTF8) then Error "Database encoding is not UTF-8"
  else
    size ← count_chars_checked (length input) input 0;
    let result := new_intArrayType size in
    st ← fill_chars_checked (length input) input (result, 0%nat);
    if decide (st.2 = length result) then Ok st.1 else Fault.

(** [array_to_utf8], first pass: the size of the string. *)

Definition code_size (code : Z) (size : nat) : nat :=
  let size := if Z.land code 0xff000000 =? 0 then size else S size in
  let size := if Z.land code 0x00ff0000 =? 0 then size else S size in
  let size := if Z.land code 0x0000ff00 =? 0 then size else S size in
  let size := if Z.land code 0x000000ff =? 0 then size else S size in
  size.

Fixpoint string_size (input : list Z) (size : nat) : nat :=
  match input with
  | [] => size
  | x :: input' => string_size input' (code_size (uint32 x) size)
  end.

(** A [char] holds the low eight bits of what is stored into it. *)

Definition char (z : Z) : Z := z mod 256.

Definition put_char (st : list Z * nat) (c : Z) : outcome (list Z * nat) :=
  res ← store st.1 st.2 (char c);
  Ok (res, S st.2).

Definition code_fill (code : Z) (st : list Z * nat) : outcome (list Z * nat) :=
  st ← (if Z.land code 0xff000000 =? 0 then Ok st
        else put_char st (Z.shiftr code 24));
  st ← (if Z.land code 0x00ff0000 =? 0 then Ok st
        else put_char st (Z.shiftr code 16));
  st ← (if Z.land code 0x0000ff00 =? 0 then Ok st
        else put_char st (Z.shiftr code 8));
  if Z.land code 0x000000ff =? 0 then Ok st else put_char st code.

Fixpoint string_fill (input : list Z) (st : list Z * nat)
    : outcome (list Z * nat) :=
  match input with
  | [] => Ok st
  | x :: input' =>
    st' ← code_fill (uint32 x) st;
    string_fill input' st'
  end.

Definition array_to_utf8 (input : list Z) : outcome (list Z) :=
  let size := string_size input 0 in
  let result := replicate (S size) 0 in
  st ← string_fill input (result, 0%nat);
  result ← store st.1 st.2 0;
  if decide (st.2 = size) then Ok (cstring_to_text result) else Fault.

(** *** The notions of the specification *)

(** The four bytes of a 32-bit integer, most significant first, and those
    of them that are not zero. *)

Definition big_endian (code : Z) : list Z :=
  [(code / 2 ^ 24) mod 256; (code / 2 ^ 16) mod 256; (code / 2 ^ 8) mod 256;
   code mod 256].

Definition nonzero_of (code : Z) : list Z :=
  filter (λ b, b ≠ 0) (big_endian code).

Definition nonzero_bytes (x : Z) : list Z := nonzero_of (uint32 x).

(** Legally encoded UTF-8, after the table of well-formed byte sequences
    of the Unicode standard: one to four bytes per character, no overlong
    form, no surrogate, nothing above U+10FFFF. *)

Definition continuation (b : Z) : bool := (0x80 <=? b) && (b <=? 0xBF).

Definition legal_one (b1 : Z) : bool := (0x00 <=? b1) && (b1 <=? 0x7F).

Definition legal_two (b1 b2 : Z) : bool :=
  (0xC2 <=? b1) && (b1 <=? 0xDF) && continuation b2.

Definition legal_three (b1 b2 b3 : Z) : bool :=
  ((b1 =? 0xE0) && (0xA0 <=? b2) && (b2 <=? 0xBF)
   || (0xE1 <=? b1) && (b1 <=? 0xEC) && continuation b2
   || (b1 =? 0xED) && (0x80 <=? b2) && (b2 <=? 0x9F)
   || (0xEE <=? b1) && (b1 <=? 0xEF) && continuation b2)
  && continuation b3.

Definition legal_four (b1 b2 b3 b4 : Z) : bool :=
  ((b1 =? 0xF0) && (0x90 <=? b2) && (b2 <=? 0xBF)
   || (0xF1 <=? b1) && (b1 <=? 0xF3) && continuation b2
   || (b1 =? 0xF4) && (0x80 <=? b2) && (b2 <=? 0x8F))
  && continuation b3 && continuation b4.

Fixpoint legal_utf8 (bytes : list Z) : bool :=
  match bytes with
  | [] => true
  | b1 :: r1 =>
    if legal_one b1 then legal_utf8 r1
    else
      match r1 with
      | [] => false
      | b2 :: r2 =>
        if legal_two b1 b2 then legal_utf8 r2
        else
          match r2 with
          | [] => false
          | b3 :: r3 =>
            if legal_three b1 b2 b3 then legal_utf8 r3
            else
              match r3 with
              | [] => false
              | b4 :: r4 =>
                if legal_four b1 b2 b3 b4 then legal_utf8 r4 else false
              end
          end
      end
  end.

(** The content of a text value as the codec receives it: bytes, none of
    them the terminator. *)

Definition byte_string (bytes : list Z) : Prop :=
  Forall (λ b, 0 < b < 256) bytes.

(** A string whose last unit is cut short by two bytes or more: after
    legal characters come the bytes [t], at least two fewer than the
    length that the first of them announces. The unit then reaches past
    the terminator. *)

Definition past_terminator (p : list Z) : Prop :=
  ∃ a t, p = a ++ t ∧ legal_utf8 a = true ∧ t ≠ [] ∧
    Z.of_nat (length t) + 2 ≤ pg_utf_mblen t.

(** *** Proof steps for the case analyses on bytes *)

(** [cmp] decides the comparisons of the goal that follow from the
    context and splits on the others; [unit_case] settles one shape of the
    first character against [pg_utf8_islegal]; [pow_lia] is [lia] with the
    powers of two evaluated. *)

Ltac cmp_known :=
  match goal with
  | |- context [?a <? ?b] =>
    first [rewrite (proj2 (Z.ltb_lt a b)) by lia | rewrite (proj2 (Z.ltb_ge a b)) by lia]
  | |- context [?a <=? ?b] =>
    first [rewrite (proj2 (Z.leb_le a b)) by lia | rewrite (proj2 (Z.leb_gt a b)) by lia]
  | |- context [?a =? ?b] =>
    first [rewrite (proj2 (Z.eqb_eq a b)) by lia | rewrite (proj2 (Z.eqb_neq a b)) by lia]
  end.

Ltac cmp_split :=
  match goal with
  | |- context [?a <? ?b] => destruct (Z.ltb_spec a b)
  | |- context [?a <=? ?b] => destruct (Z.leb_spec a b)
  | |- context [?a =? ?b] => destruct (Z.eqb_spec a b)
  end.

Ltac cmp :=
  rewrite ?Z.gtb_ltb, ?Z.geb_leb;
  repeat (first [cmp_known | cmp_split]; cbn [andb orb negb]).

Ltac hide_tails :=
  repeat match goal with
  | |- context [legal_utf8 ?x] => generalize (legal_utf8 x); intro
  end.

Ltac unit_case :=
  cbn [nth skipn length]; rewrite ?drop_0; hide_tails;
  unfold pg_utf8_islegal, byte_at, legal_one, legal_two, legal_three, legal_four,
    continuation; cbn [nth];
  cmp; try done; try lia; simpl; try (split_and!; try lia; done).

Ltac pow_lia :=
  unfold is_uint32;
  change (2 ^ 32) with 4294967296 in *; change (2 ^ 24) with 16777216 in *;
  change (2 ^ 16) with 65536 in *; change (2 ^ 8) with 256 in *;
  first [lia | Z.div_mod_to_equations; lia].

(** ** Decomposition and canonical ordering *)

Section Table.

Variable SASLPrepConv : list pg_utf_decomposition.

(** [get_code_entry]: a miss fails the [Assert]; without assertions the
    [NULL] is returned and every caller dereferences it at once. *)

Definition get_code_entry (code : Z) : outcome pg_utf_decomposition :=
  match bsearch code SASLPrepConv with
  | Some entry => Ok entry
  | None => Fault
  end.

(** The [for] loop of [get_decomposed_size] over [entry->codes], leaving at
    the first zero; [rec] is the recursive call. *)

Fixpoint size_codes (rec : Z → outcome nat) (cs : list Z) (size : nat)
    : outcome nat :=
  match cs with
  | [] => Ok size
  | lcode :: cs' =>
    if lcode =? 0 then Ok size
    else n ← rec lcode; size_codes rec cs' (size + n)%nat
  end.

Fixpoint get_decomposed_size (depth : nat) (code : Z) : outcome nat :=
  match depth with
  | O => OutOfFuel
  | S depth' =>
    entry ← get_code_entry code;
    if nth 0 (codes entry) 0 =? 0 then Ok 1%nat
    else size_codes (get_decomposed_size depth') (codes entry) 0
  end.

Fixpoint decompose_codes (rec : Z → list Z * nat → outcome (list Z * nat))
    (cs : list Z) (st : list Z * nat) : outcome (list Z * nat) :=
  match cs with
  | [] => Ok st
  | lcode :: cs' =>
    if lcode =? 0 then Ok st
    else st' ← rec lcode st; decompose_codes rec cs' st'
  end.

Fixpoint decompose_code (depth : nat) (code : Z) (st : list Z * nat)
    : outcome (list Z * nat) :=
  match depth with
  | O => OutOfFuel
  | S depth' =>
    entry ← get_code_entry code;
    if nth 0 (codes entry) 0 =? 0 then
      res ← store st.1 st.2 (int32 code);
      Ok (res, S st.2)
    else decompose_codes (decompose_code depth') (codes entry) st
  end.

(** The three loops of [pg_sasl_prepare]. *)

Fixpoint size_pass (depth : nat) (input : list Z) (size : nat) : outcome nat :=
  match input with
  | [] => Ok size
  | x :: input' =>
    let code := uint32 x in
    n ← get_decomposed_size depth code;
    size_pass depth input' (size + n)%nat
  end.

Fixpoint fill_pass (depth : nat) (input : list Z) (st : list Z * nat)
    : outcome (list Z * nat) :=
  match input with
  | [] => Ok st
  | x :: input' =>
    let code := uint32 x in
    st' ← decompose_code depth code st;
    fill_pass depth input' st'
  end.

(** One turn of the ordering loop at index [count]: the buffer after the
    body and the value of [count] just before the [count++] of the [for]. *)

Definition ordering_body (res : list Z) (count : nat) : outcome (list Z * nat) :=
  a ← load res (count - 1);
  b ← load res count;
  let prev := uint32 a in
  let next := uint32 b in
  prevEntry ← get_code_entry prev;
  nextEntry ← get_code_entry next;
  if (class nextEntry =? 0) || (class prevEntry =? 0) then Ok (res, count)
  else if class prevEntry <=? class nextEntry then Ok (res, count)
  else
    let tmp := prev in
    res1 ← store res (count - 1) b;
    res2 ← store res1 count (int32 tmp);
    Ok (res2, if decide (1 < count)%nat then (count - 2)%nat else count).

Fixpoint ordering_loop (fuel : nat) (res : list Z) (count : nat)
    : outcome (list Z) :=
  if decide (count < length res)%nat then
    match fuel with
    | O => OutOfFuel
    | S fuel' =>
      st ← ordering_body res count;
      ordering_loop fuel' st.1 (S st.2)
    end
  else Ok res.

(** The combining class the ordering loop reads for an array element
    (0 where the element has no entry, in which case the loop faults
    before using it). *)

Definition combining_class (z : Z) : Z :=
  match get_code_entry (uint32 z) with
  | Ok entry => class entry
  | _ => 0
  end.

(** The ordering loop has no bound in the C code. Here it runs on a
    number of turns computed from the buffer; [ordering_loop_fuel] below
    shows that this number is never exhausted. *)

Definition ordering_fuel (res : list Z) : nat :=
  (2 * inversions (combining_class <$> res) + length res)%nat.

Definition canonical_ordering (res : list Z) : outcome (list Z) :=
  ordering_loop (ordering_fuel res) res 1.

Definition pg_sasl_prepare (depth : nat) (input : list Z) : outcome (list Z) :=
  size ← size_pass depth input 0;
  let result := new_intArrayType size in
  st ← fill_pass depth input (result, 0%nat);
  canonical_ordering st.1.

(** [utf8_conv_table]: the checks on the call, then one tuple per entry
    of the table into the tuple store. *)

Definition utf8_conv_table (resultinfo : option Node) (result_type : TypeFuncClass)
    : outcome (list conv_tuple) :=
  match resultinfo with
  | None => Error "set-valued function called in context that cannot accept a set"
  | Some rsinfo =>
    if negb (is_ReturnSetInfo rsinfo) then
      Error "set-valued function called in context that cannot accept a set"
    else if Z.land (allowedModes rsinfo) SFRM_Materialize =? 0 then
      Error "materialize mode required, but it is not allowed in this context"
    else
      match result_type with
      | TYPEFUNC_COMPOSITE => conv_table_tuples SASLPrepConv []
      | _ => Error "return type must be a row type"
      end
  end.

(** *** The notions of the specification *)

(** The table is an array of C structures: the key of an entry is a
    [uint32]. *)

Definition table_typed : Prop := Forall (λ entry, is_uint32 (utf entry)) SASLPrepConv.

(** The table is generated sorted by code, without duplicates; [bsearch]
    relies on it. *)

Definition table_sorted : Prop :=
  StronglySorted (λ e1 e2, utf e1 < utf e2) SASLPrepConv.

Definition has_entry (code : Z) : Prop := ∃ entry, get_code_entry code = Ok entry.

(** The decomposition of an entry: its codes up to the first zero. *)

Definition decomposition (entry : pg_utf_decomposition) : list Z :=
  until_zero (codes entry).

(** A terminal code point: the first decomposition code of its entry is 0. *)

Definition terminal (code : Z) : Prop :=
  ∃ entry, get_code_entry code = Ok entry ∧ nth 0 (codes entry) 0 = 0.

(** The code point has an entry and so has every code point of its
    decomposition tree, which is less than [depth] levels deep. *)

Fixpoint well_formed (depth : nat) (code : Z) : Prop :=
  match depth with
  | O => False
  | S depth' =>
    ∃ entry, get_code_entry code = Ok entry ∧
      Forall (well_formed depth') (decomposition entry)
  end.

(** The decomposition engine in the words of the specification: the code
    point itself when its decomposition is empty, otherwise the
    concatenation of the decompositions of its elements, in order. *)

Fixpoint decompose_all (rec : Z → outcome (list Z)) (cs : list Z)
    : outcome (list Z) :=
  match cs with
  | [] => Ok []
  | c :: cs' => l ← rec c; l' ← decompose_all rec cs'; Ok (l ++ l')
  end.

Fixpoint decompose (depth : nat) (code : Z) : outcome (list Z) :=
  match depth with
  | O => OutOfFuel
  | S depth' =>
    entry ← get_code_entry code;
    match decomposition entry with
    | [] => Ok [code]
    | cs => decompose_all (decompose depth') cs
    end
  end.

(** The flat sequence of the specification's [prepare], before it is
    reordered: the decompositions of the input code points, in order. *)

Definition decompose_input (depth : nat) (input : list Z) : outcome (list Z) :=
  decompose_all (decompose depth) (uint32 <$> input).

(** The tuple that shows an entry: its code as [int4], its class as
    [int2], its decomposition as an array of [int4], [NULL] when empty. *)

Definition entry_tuple (entry : pg_utf_decomposition) : conv_tuple :=
  {| tuple_utf := int32 (utf entry);
     tuple_class := int16 (class entry);
     tuple_decomp :=
       match decomposition entry with
       | [] => None
       | cs => Some (int32 <$> cs)
       end |}.

(** Starters, exchangeable pairs, and arrays without an exchangeable pair
    of neighbours. *)

Definition starter (z : Z) : Prop := combining_class z = 0.

Definition exchangeable (a b : Z) : Prop :=
  combining_class a ≠ 0 ∧ combining_class b ≠ 0 ∧
  combining_class b < combining_class a.

Definition ordered (res : list Z) : Prop :=
  ∀ i a b, res !! i = Some a → res !! S i = Some b → ¬ exchangeable a b.

(** The three ways one turn of the ordering loop can go at an index
    [count] inside the array: a lookup misses; the pair is left alone; the
    pair is exchanged and the index steps back. *)

Inductive body_view (res : list Z) (count : nat) : outcome (list Z * nat) → Prop :=
| body_miss a b :
    res !! (count - 1)%nat = Some a → res !! count = Some b →
    get_code_entry (uint32 a) = Fault ∨ get_code_entry (uint32 b) = Fault →
    body_view res count Fault
| body_keep a b :
    res !! (count - 1)%nat = Some a → res !! count = Some b →
    has_entry (uint32 a) → has_entry (uint32 b) →
    ¬ exchangeable a b →
    body_view res count (Ok (res, count))
| body_swap l1 a b l2 :
    res = l1 ++ a :: b :: l2 → length l1 = (count - 1)%nat →
    has_entry (uint32 a) → has_entry (uint32 b) →
    exchangeable a b →
    body_view res count
      (Ok (l1 ++ b :: int32 (uint32 a) :: l2,
           if decide (1 < count)%nat then (count - 2)%nat else count)).

(** * Properties *)

(** ** Outcomes and machine integers *)

Lemma bind_Ok {A B} (m : outcome A) (f : A → outcome B) (b : B) :
  m ≫= f = Ok b ↔ ∃ a, m = Ok a ∧ f a = Ok b.
Proof.
  destruct m; simpl; split; try (intros [? [? ?]]); try discriminate; eauto.
  intros; simplify_eq; done.
Qed.

Lemma uint32_range z : is_uint32 (uint32 z).
Proof. unfold is_uint32, uint32. apply Z.mod_pos_bound. lia. Qed.

Lemma int32_range z : is_int32 (int32 z).
Proof.
  unfold is_int32, int32.
  pose proof (Z.mod_pos_bound (z + 2 ^ 31) (2 ^ 32)). lia.
Qed.

Lemma uint32_id z : is_uint32 z → uint32 z = z.
Proof. unfold is_uint32, uint32. intros. by apply Z.mod_small. Qed.

Lemma int32_id z : is_int32 z → int32 z = z.
Proof.
  unfold is_int32, int32. intros.
  rewrite Z.mod_small; lia.
Qed.

Lemma uint32_uint32 z : uint32 (uint32 z) = uint32 z.
Proof. unfold uint32. apply Zmod_mod. Qed.

Lemma uint32_int32 z : uint32 (int32 z) = uint32 z.
Proof.
  unfold uint32, int32.
  rewrite Zminus_mod, Zmod_mod, <- Zminus_mod.
  f_equal. lia.
Qed.

Lemma int32_uint32 z : int32 (uint32 z) = int32 z.
Proof.
  unfold uint32, int32.
  rewrite Zplus_mod, Zmod_mod, <- Zplus_mod. done.
Qed.

(** ** Table lookup *)

Lemma bsearch_loop_found steps key base l u p :
  bsearch_loop steps key base l u = Some p → p ∈ base ∧ utf p = key.
Proof.
  revert l u. induction steps as [|steps IH]; intros l u; simpl; [done|].
  case_decide; [|done].
  destruct (base !! _) as [q|] eqn:Hq; [|done].
  unfold conv_compare.
  destruct (Z.gtb_spec key (utf q)); simpl.
  { apply IH. }
  destruct (Z.eqb_spec key (utf q)); simpl.
  - intros [= <-]. split; [by eapply list_elem_of_lookup_2|done].
  - apply IH.
Qed.

Lemma get_code_entry_found code entry :
  get_code_entry code = Ok entry → entry ∈ SASLPrepConv ∧ utf entry = code.
Proof.
  unfold get_code_entry, bsearch.
  destruct (bsearch_loop _ _ _ _ _) eqn:H; [|done].
  intros [= <-]. by eapply bsearch_loop_found.
Qed.

Lemma sorted_lookup {A} (R : A → A → Prop) l i j x y :
  StronglySorted R l → (i < j)%nat → l !! i = Some x → l !! j = Some y → R x y.
Proof.
  intros Hl. revert i j. induction Hl as [|a l Hl IH Ha]; intros i j Hij; [done|].
  destruct j as [|j]; [lia|]. destruct i as [|i]; simpl.
  - intros [= <-] Hy. rewrite Forall_forall in Ha.
    by eapply Ha, list_elem_of_lookup_2.
  - apply IH. lia.
Qed.

Lemma bsearch_loop_miss steps key base l u :
  StronglySorted (λ e1 e2, utf e1 < utf e2) base →
  (u - l < steps)%nat → (u ≤ length base)%nat →
  (∀ i e, (i < l)%nat → base !! i = Some e → utf e < key) →
  (∀ i e, (u ≤ i)%nat → base !! i = Some e → key < utf e) →
  bsearch_loop steps key base l u = None →
  ∀ e, e ∈ base → utf e ≠ key.
Proof.
  intros Hsorted. revert l u.
  induction steps as [|steps IH]; intros l u Hsteps Hu Hlow Hhigh; [lia|].
  cbn [bsearch_loop]. case_decide as Hlu.
  - assert (Hidx : (l ≤ (l + u) / 2 < u)%nat).
    { split; [apply Nat.div_le_lower_bound; lia|apply Nat.Div0.div_lt_upper_bound; lia]. }
    revert Hidx. generalize ((l + u) / 2)%nat. intros idx Hidx.
    destruct (base !! idx) as [p|] eqn:Hp; [|apply lookup_ge_None in Hp; lia].
    unfold conv_compare.
    destruct (Z.gtb_spec key (utf p)); simpl.
    + apply IH; [lia|lia| |done].
      intros i e Hi He. destruct (decide (i = idx)) as [->|]; [by simplify_eq|].
      assert (utf e < utf p); [|lia].
      apply (sorted_lookup (λ e1 e2, utf e1 < utf e2) base i idx);
        [done|lia|done..].
    + destruct (Z.eqb_spec key (utf p)); simpl; [done|].
      apply IH; [lia|lia|done|].
      intros i e Hi He. destruct (decide (i = idx)) as [->|]; [simplify_eq; lia|].
      assert (utf p < utf e); [|lia].
      apply (sorted_lookup (λ e1 e2, utf e1 < utf e2) base idx i);
        [done|lia|done..].
  - intros _ e [i Hi]%list_elem_of_lookup_1.
    destruct (decide (i < l)%nat).
    + pose proof (Hlow i e ltac:(lia) Hi). lia.
    + pose proof (Hhigh i e ltac:(lia) Hi). lia.
Qed.

Lemma bsearch_sorted key base :
  StronglySorted (λ e1 e2, utf e1 < utf e2) base →
  match bsearch key base with
  | Some p => p ∈ base ∧ utf p = key
  | None => ∀ e, e ∈ base → utf e ≠ key
  end.
Proof.
  intros Hsorted. unfold bsearch.
  destruct (bsearch_loop _ _ _ _ _) as [p|] eqn:H.
  - by eapply bsearch_loop_found.
  - eapply bsearch_loop_miss; [done| | | | |done]; try lia.
    intros i e Hi He. apply lookup_lt_Some in He. lia.
Qed.

Lemma get_code_entry_sorted code :
  table_sorted →
  (has_entry code ↔ ∃ entry, entry ∈ SASLPrepConv ∧ utf entry = code) ∧
  (get_code_entry code = Fault ↔ ∀ entry, entry ∈ SASLPrepConv → utf entry ≠ code).
Proof.
  intros Hsorted. pose proof (bsearch_sorted code SASLPrepConv Hsorted) as H.
  unfold has_entry, get_code_entry. destruct (bsearch code SASLPrepConv) as [p|].
  - split; split; try done.
    + intros _. by exists p.
    + intros _. by exists p.
    + intros Hmiss. destruct H as [Hin Hp]. by destruct (Hmiss p Hin).
  - split; split; try done.
    + by intros [entry ?].
    + intros (entry & Hin & Hp). by destruct (H entry Hin).
Qed.

Lemma get_code_entry_cases code :
  (∃ entry, get_code_entry code = Ok entry) ∨ get_code_entry code = Fault.
Proof. unfold get_code_entry. destruct (bsearch _ _); eauto. Qed.

Lemma has_entry_uint32 code : table_typed → has_entry code → is_uint32 code.
Proof.
  intros Ht [entry H]. apply get_code_entry_found in H as [Hin <-].
  unfold table_typed in Ht. rewrite Forall_forall in Ht. by apply Ht.
Qed.

Lemma combining_class_entry z entry :
  get_code_entry (uint32 z) = Ok entry → combining_class z = class entry.
Proof. unfold combining_class. by intros ->. Qed.

(** ** Decomposition *)

Lemma until_zero_nth cs : nth 0 cs 0 = 0 ↔ until_zero cs = [].
Proof.
  destruct cs as [|c cs]; simpl; [done|].
  destruct (Z.eqb_spec c 0); split; intros; done.
Qed.

Lemma until_zero_nonzero cs : Forall (λ c, c ≠ 0) (until_zero cs).
Proof.
  induction cs as [|c cs IH]; simpl; [constructor|].
  destruct (Z.eqb_spec c 0); by constructor.
Qed.

Lemma until_zero_id cs : Forall (λ c, c ≠ 0) cs → until_zero cs = cs.
Proof.
  induction 1 as [|c cs Hc _ IH]; simpl; [done|].
  destruct (Z.eqb_spec c 0); [done|]. by rewrite IH.
Qed.

Lemma size_codes_until_zero rec cs size :
  size_codes rec cs size = size_codes rec (until_zero cs) size.
Proof.
  revert size. induction cs as [|c cs IH]; intros size; simpl; [done|].
  destruct (Z.eqb_spec c 0) as [->|Hc]; simpl; [done|].
  destruct (Z.eqb_spec c 0); [done|].
  destruct (rec c); simpl; auto.
Qed.

Lemma decompose_codes_until_zero rec cs st :
  decompose_codes rec cs st = decompose_codes rec (until_zero cs) st.
Proof.
  revert st. induction cs as [|c cs IH]; intros st; simpl; [done|].
  destruct (Z.eqb_spec c 0) as [->|Hc]; simpl; [done|].
  destruct (Z.eqb_spec c 0); [done|].
  destruct (rec c st); simpl; auto.
Qed.

Lemma stored_nil res cur : stored res cur [] = res.
Proof. unfold stored. simpl. rewrite Nat.add_0_r. apply take_drop. Qed.

Lemma stored_length res cur l :
  (cur + length l ≤ length res)%nat → length (stored res cur l) = length res.
Proof.
  intros. unfold stored.
  rewrite !length_app, length_take, length_drop. lia.
Qed.

Lemma stored_app res cur l1 l2 :
  (cur + length l1 + length l2 ≤ length res)%nat →
  stored (stored res cur l1) (cur + length l1) l2 = stored res cur (l1 ++ l2).
Proof.
  intros H. unfold stored.
  assert (Hlen : length (take cur res ++ l1) = (cur + length l1)%nat).
  { rewrite length_app, length_take. lia. }
  rewrite !(assoc_L (++) (take cur res) l1).
  rewrite take_app_length'; [|done].
  rewrite drop_app_ge; [|lia].
  rewrite Hlen, drop_drop, length_app, <- !(assoc_L (++)).
  do 3 f_equal. f_equal. lia.
Qed.

Lemma store_stored res cur v :
  (cur < length res)%nat → store res cur v = Ok (stored res cur [v]).
Proof.
  intros H. unfold store. case_decide; [|lia].
  f_equal. unfold stored. simpl.
  rewrite insert_take_drop; [|done]. do 3 f_equal. lia.
Qed.

Lemma stored_whole res l : length res = length l → stored res 0 l = l.
Proof.
  intros H. unfold stored. simpl.
  rewrite drop_ge; [|lia]. by rewrite (right_id_L [] (++)).
Qed.

Lemma stored_lookup res cur l i :
  (cur + length l ≤ length res)%nat → (cur ≤ i < cur + length l)%nat →
  stored res cur l !! i = l !! (i - cur)%nat.
Proof.
  intros Hlen Hi. unfold stored.
  rewrite lookup_app_r; rewrite length_take; [|lia].
  replace (cur `min` length res)%nat with cur by lia.
  by rewrite lookup_app_l by lia.
Qed.

Lemma written_nil res cur : written res cur [] = res.
Proof. apply stored_nil. Qed.

Lemma written_length res cur l :
  (cur + length l ≤ length res)%nat → length (written res cur l) = length res.
Proof. intros. apply stored_length. by rewrite length_fmap. Qed.

Lemma written_app res cur l1 l2 :
  (cur + length l1 + length l2 ≤ length res)%nat →
  written (written res cur l1) (cur + length l1) l2 = written res cur (l1 ++ l2).
Proof.
  intros. unfold written. rewrite fmap_app, <- stored_app.
  - by rewrite length_fmap.
  - by rewrite !length_fmap.
Qed.

Lemma store_written res cur v :
  (cur < length res)%nat →
  store res cur (int32 v) = Ok (written res cur [v]).
Proof. apply store_stored. Qed.

(** The count-only loop and the fill loop against the list that
    [decompose_all] builds. *)

Lemma size_codes_decompose_all rec_size rec cs :
  Forall (λ c, c ≠ 0) cs →
  (∀ c l, rec c = Ok l → rec_size c = Ok (length l)) →
  ∀ l size, decompose_all rec cs = Ok l →
    size_codes rec_size cs size = Ok (size + length l)%nat.
Proof.
  intros Hnz Hrec. induction Hnz as [|c cs Hc _ IH]; intros l size; simpl.
  - intros [= <-]. simpl. f_equal. lia.
  - destruct (Z.eqb_spec c 0); [done|].
    intros (l1 & H1 & H)%bind_Ok. apply bind_Ok in H as (l2 & H2 & [= <-]).
    rewrite (Hrec _ _ H1). simpl. rewrite (IH _ _ H2), length_app.
    f_equal. lia.
Qed.

Lemma decompose_codes_decompose_all rec_fill rec cs :
  Forall (λ c, c ≠ 0) cs →
  (∀ c l res cur, rec c = Ok l → (cur + length l ≤ length res)%nat →
     rec_fill c (res, cur) = Ok (written res cur l, (cur + length l)%nat)) →
  ∀ l res cur, decompose_all rec cs = Ok l →
    (cur + length l ≤ length res)%nat →
    decompose_codes rec_fill cs (res, cur)
    = Ok (written res cur l, (cur + length l)%nat).
Proof.
  intros Hnz Hrec. induction Hnz as [|c cs Hc _ IH]; intros l res cur; simpl.
  - intros [= <-] _. rewrite written_nil. simpl. do 2 f_equal. lia.
  - destruct (Z.eqb_spec c 0); [done|].
    intros (l1 & H1 & H)%bind_Ok. apply bind_Ok in H as (l2 & H2 & [= <-]).
    rewrite length_app. intros Hlen.
    rewrite (Hrec _ _ _ _ H1); [|lia]. simpl.
    rewrite (IH _ _ _ H2); [|rewrite written_length; lia].
    rewrite written_app; [|lia]. do 2 f_equal. lia.
Qed.

Lemma decompose_S depth code :
  decompose (S depth) code =
  entry ← get_code_entry code;
  if nth 0 (codes entry) 0 =? 0 then Ok [code]
  else decompose_all (decompose depth) (decomposition entry).
Proof.
  simpl. destruct (get_code_entry code) as [entry| | |]; simpl; try done.
  unfold decomposition. destruct (codes entry) as [|c cs]; simpl; [done|].
  by destruct (Z.eqb_spec c 0).
Qed.

Lemma get_decomposed_size_decompose depth code l :
  decompose depth code = Ok l →
  get_decomposed_size depth code = Ok (length l).
Proof.
  revert code l. induction depth as [|depth IH]; intros code l; [done|].
  rewrite decompose_S. cbn [get_decomposed_size].
  destruct (get_code_entry code) as [entry| | |]; simpl; try done.
  destruct (Z.eqb_spec (nth 0 (codes entry) 0) 0) as [H0|H0].
  - by intros [= <-].
  - rewrite size_codes_until_zero. intros H.
    by apply (size_codes_decompose_all _ (decompose depth) _
                (until_zero_nonzero _) IH l 0%nat).
Qed.

Lemma decompose_code_decompose depth code l res cur :
  decompose depth code = Ok l →
  (cur + length l ≤ length res)%nat →
  decompose_code depth code (res, cur)
  = Ok (written res cur l, (cur + length l)%nat).
Proof.
  revert code l res cur.
  induction depth as [|depth IH]; intros code l res cur; [done|].
  rewrite decompose_S. cbn [decompose_code].
  destruct (get_code_entry code) as [entry| | |]; simpl; try done.
  destruct (Z.eqb_spec (nth 0 (codes entry) 0) 0) as [H0|H0].
  - intros [= <-]. simpl. intros.
    rewrite store_written; [|lia]. simpl. do 2 f_equal. lia.
  - rewrite decompose_codes_until_zero. intros H Hlen.
    by apply (decompose_codes_decompose_all _ (decompose depth) _
                (until_zero_nonzero _) IH l res cur).
Qed.

(** A well-formed code point decomposes, into terminal code points. *)

Lemma decompose_all_total rec cs :
  Forall (λ c, ∃ l, rec c = Ok l) cs → ∃ l, decompose_all rec cs = Ok l.
Proof.
  induction 1 as [|c cs [l1 H1] _ [l2 H2]]; simpl; [by eexists|].
  rewrite H1. simpl. rewrite H2. simpl. by eexists.
Qed.

Lemma decompose_total depth code :
  well_formed depth code → ∃ l, decompose depth code = Ok l.
Proof.
  revert code. induction depth as [|depth IH]; intros code; [done|].
  rewrite decompose_S. intros (entry & -> & Hall). simpl.
  destruct (_ =? _); [by eexists|].
  apply decompose_all_total. eapply Forall_impl; [done|]. apply IH.
Qed.

Lemma decompose_all_Ok rec cs l :
  decompose_all rec cs = Ok l →
  ∃ ls, Forall2 (λ c l', rec c = Ok l') cs ls ∧ l = concat ls.
Proof.
  revert l. induction cs as [|c cs IH]; intros l; simpl.
  - intros [= <-]. exists []. by split; [constructor|].
  - intros (l1 & H1 & H)%bind_Ok. apply bind_Ok in H as (l2 & H2 & [= <-]).
    destruct (IH _ H2) as (ls & Hls & ->).
    exists (l1 :: ls). by split; [constructor|].
Qed.

Lemma decompose_well_formed depth code l :
  decompose depth code = Ok l → well_formed depth code.
Proof.
  revert code l. induction depth as [|depth IH]; intros code l; [done|].
  rewrite decompose_S. cbn [well_formed].
  destruct (get_code_entry code) as [entry| | |]; simpl; try done.
  intros H. exists entry. split; [done|].
  destruct (Z.eqb_spec (nth 0 (codes entry) 0) 0) as [H0|H0].
  - apply until_zero_nth in H0. unfold decomposition. rewrite H0. constructor.
  - apply decompose_all_Ok in H as (ls & Hls & _).
    induction Hls; constructor; eauto.
Qed.

Lemma decompose_terminal depth code l :
  decompose depth code = Ok l → Forall terminal l.
Proof.
  revert code l. induction depth as [|depth IH]; intros code l; [done|].
  rewrite decompose_S.
  destruct (get_code_entry code) as [entry| | |] eqn:He; simpl; try done.
  destruct (Z.eqb_spec (nth 0 (codes entry) 0) 0) as [H0|H0].
  - intros [= <-]. constructor; [|constructor]. by exists entry.
  - intros (ls & Hls & ->)%decompose_all_Ok.
    apply Forall_concat. induction Hls; constructor; eauto.
Qed.

Lemma decompose_terminal_code depth code :
  terminal code → decompose (S depth) code = Ok [code].
Proof.
  intros (entry & He & H0). rewrite decompose_S, He. simpl. by rewrite H0.
Qed.

Lemma well_formed_mono depth depth' code :
  (depth ≤ depth')%nat → well_formed depth code → well_formed depth' code.
Proof.
  revert depth' code. induction depth as [|depth IH]; intros depth' code Hle; [done|].
  destruct depth' as [|depth']; [lia|]. simpl.
  intros (entry & He & Hall). exists entry. split; [done|].
  eapply Forall_impl; [done|]. intros c. apply IH. lia.
Qed.

(** The two passes of [pg_sasl_prepare] over the input. *)

Lemma size_pass_decompose depth input l size :
  decompose_input depth input = Ok l →
  size_pass depth input size = Ok (size + length l)%nat.
Proof.
  unfold decompose_input. revert l size.
  induction input as [|x input IH]; intros l size; simpl.
  - intros [= <-]. simpl. f_equal. lia.
  - intros (l1 & H1 & H)%bind_Ok. apply bind_Ok in H as (l2 & H2 & [= <-]).
    rewrite (get_decomposed_size_decompose _ _ _ H1). simpl.
    rewrite (IH _ _ H2), length_app. f_equal. lia.
Qed.

Lemma fill_pass_decompose depth input l res cur :
  decompose_input depth input = Ok l →
  (cur + length l ≤ length res)%nat →
  fill_pass depth input (res, cur) = Ok (written res cur l, (cur + length l)%nat).
Proof.
  unfold decompose_input. revert l res cur.
  induction input as [|x input IH]; intros l res cur; simpl.
  - intros [= <-] _. rewrite written_nil. simpl. do 2 f_equal. lia.
  - intros (l1 & H1 & H)%bind_Ok. apply bind_Ok in H as (l2 & H2 & [= <-]).
    rewrite length_app. intros Hlen.
    rewrite (decompose_code_decompose _ _ _ _ _ H1); [|lia]. simpl.
    rewrite (IH _ _ _ H2); [|rewrite written_length; lia].
    rewrite written_app; [|lia]. do 2 f_equal. lia.
Qed.

Lemma written_whole res l :
  length res = length l → written res 0 l = int32 <$> l.
Proof. intros. apply stored_whole. by rewrite length_fmap. Qed.

Lemma written_lookup res cur l i :
  (cur + length l ≤ length res)%nat → (cur ≤ i < cur + length l)%nat →
  written res cur l !! i = int32 <$> l !! (i - cur)%nat.
Proof.
  intros. unfold written. rewrite stored_lookup by (by rewrite length_fmap).
  apply list_lookup_fmap.
Qed.

Lemma decompose_input_total depth input :
  Forall (well_formed depth) (uint32 <$> input) →
  ∃ l, decompose_input depth input = Ok l.
Proof.
  intros H. apply decompose_all_total.
  eapply Forall_impl; [done|]. apply decompose_total.
Qed.

Lemma decompose_input_terminal depth input l :
  decompose_input depth input = Ok l → Forall terminal l.
Proof.
  intros (ls & Hls & ->)%decompose_all_Ok. apply Forall_concat.
  induction Hls; constructor; eauto using decompose_terminal.
Qed.

Lemma pg_sasl_prepare_decompose depth input l :
  decompose_input depth input = Ok l →
  pg_sasl_prepare depth input = canonical_ordering (int32 <$> l).
Proof.
  intros H. unfold pg_sasl_prepare.
  rewrite (size_pass_decompose _ _ _ _ H). simpl.
  rewrite (fill_pass_decompose _ _ _ _ _ H);
    [|unfold new_intArrayType; rewrite length_replicate; lia].
  simpl. rewrite written_whole; [done|].
  unfold new_intArrayType. by rewrite length_replicate.
Qed.

(** C3. For a code point with an entry and a decomposition tree of finite
    depth, the fill pass [decompose_code] appends exactly as many elements
    as the count-only pass [get_decomposed_size] computes, and touches
    nothing else of the buffer. Hence the buffer that [pg_sasl_prepare]
    allocates from the summed sizes is filled exactly: the fill pass
    writes every element (its result does not depend on what the buffer
    held), stops at the end of the buffer and never stores outside it. *)

Theorem decompose_code_fills_counted depth code input :
  well_formed depth code →
  Forall (well_formed depth) (uint32 <$> input) →
  (∃ n, get_decomposed_size depth code = Ok n ∧
     ∀ res cur, (cur + n ≤ length res)%nat →
       ∃ res', decompose_code depth code (res, cur) = Ok (res', (cur + n)%nat) ∧
         length res' = length res ∧
         take cur res' = take cur res ∧
         drop (cur + n) res' = drop (cur + n) res) ∧
  (∃ size out, size_pass depth input 0 = Ok size ∧
     length out = size ∧
     ∀ res, length res = size → fill_pass depth input (res, 0%nat) = Ok (out, size)).
Proof.
  intros Hcode Hinput. split.
  - destruct (decompose_total _ _ Hcode) as [l Hl].
    exists (length l). split; [by apply get_decomposed_size_decompose|].
    intros res cur Hlen. exists (written res cur l).
    split; [by apply decompose_code_decompose|].
    split; [by apply written_length|]. unfold written, stored. split.
    + rewrite take_app_length'; [done|]. rewrite length_take. lia.
    + rewrite length_fmap, (assoc_L (++)), drop_app_length'; [done|].
      rewrite length_app, length_take, length_fmap. lia.
  - destruct (decompose_input_total _ _ Hinput) as [l Hl].
    exists (length l), (int32 <$> l).
    split; [by rewrite (size_pass_decompose _ _ _ 0%nat Hl)|].
    split; [by rewrite length_fmap|].
    intros res Hres.
    rewrite (fill_pass_decompose _ _ _ _ _ Hl); [|simpl; lia].
    by rewrite written_whole.
Qed.

(** C8. For a code point with an entry and a well-formed decomposition
    tree, every element that [decompose_code] appends to the buffer is
    terminal: the first decomposition code of its entry is 0. *)

Theorem decompose_code_terminal depth code res cur :
  table_typed →
  well_formed depth code →
  ∃ n, get_decomposed_size depth code = Ok n ∧
    ((cur + n ≤ length res)%nat →
     ∃ res', decompose_code depth code (res, cur) = Ok (res', (cur + n)%nat) ∧
       ∀ i z, (cur ≤ i < cur + n)%nat → res' !! i = Some z →
         terminal (uint32 z)).
Proof.
  intros Ht Hcode. destruct (decompose_total _ _ Hcode) as [l Hl].
  exists (length l). split; [by apply get_decomposed_size_decompose|].
  intros Hlen. exists (written res cur l).
  split; [by apply decompose_code_decompose|].
  intros i z Hi. rewrite written_lookup; [|done..].
  destruct (l !! _) as [c|] eqn:Hc; [|done]. intros [= <-].
  pose proof (decompose_terminal _ _ _ Hl) as Hterm.
  rewrite Forall_forall in Hterm.
  assert (terminal c) as Hc' by (eapply Hterm, list_elem_of_lookup_2; done).
  rewrite uint32_int32, uint32_id; [done|].
  destruct Hc' as (entry & He & _). apply has_entry_uint32; [done|by exists entry].
Qed.

(** ** The canonical ordering loop *)

Lemma adjacent_split {A} (res : list A) i a b :
  res !! i = Some a → res !! S i = Some b →
  ∃ l1 l2, res = l1 ++ a :: b :: l2 ∧ length l1 = i.
Proof.
  intros Ha Hb. exists (take i res), (drop (S (S i)) res). split.
  - rewrite <- (take_drop_middle res i a Ha) at 1. do 2 f_equal.
    rewrite <- (take_drop_middle (drop (S i) res) 0 b).
    + rewrite drop_drop. simpl. do 2 f_equal. lia.
    + rewrite lookup_drop. by rewrite Nat.add_0_r.
  - apply length_take_le. apply lookup_lt_Some in Ha. lia.
Qed.

Lemma adjacent_lookup {A} (l1 l2 : list A) a b :
  (l1 ++ a :: b :: l2) !! length l1 = Some a ∧
  (l1 ++ a :: b :: l2) !! S (length l1) = Some b.
Proof.
  split.
  - by rewrite list_lookup_middle.
  - rewrite lookup_app_r; [|lia]. by replace (S _ - _)%nat with 1%nat by lia.
Qed.

Lemma adjacent_insert {A} (l1 l2 : list A) a b x y i :
  length l1 = i →
  <[S i := y]> (<[i := x]> (l1 ++ a :: b :: l2)) = l1 ++ x :: y :: l2.
Proof.
  intros <-.
  rewrite insert_app_r_alt; [|lia]. rewrite Nat.sub_diag. simpl.
  rewrite insert_app_r_alt; [|lia].
  by replace (S _ - _)%nat with 1%nat by lia.
Qed.

Lemma combining_class_int32_uint32 a :
  combining_class (int32 (uint32 a)) = combining_class a.
Proof. unfold combining_class. by rewrite uint32_int32, uint32_uint32. Qed.

Lemma ordering_body_view res count :
  (1 ≤ count < length res)%nat → body_view res count (ordering_body res count).
Proof.
  intros Hc. destruct count as [|c]; [lia|].
  unfold ordering_body, load. replace (S c - 1)%nat with c by lia.
  destruct (res !! c) as [a|] eqn:Ha; [|apply lookup_ge_None in Ha; lia].
  destruct (res !! S c) as [b|] eqn:Hb; [|apply lookup_ge_None in Hb; lia].
  simpl.
  assert (Ha' : res !! (S c - 1)%nat = Some a).
  { by replace (S c - 1)%nat with c by lia. }
  destruct (get_code_entry_cases (uint32 a)) as [[ea Hea]|Hea]; rewrite Hea; simpl;
    [|by eapply body_miss; eauto].
  destruct (get_code_entry_cases (uint32 b)) as [[eb Heb]|Heb]; rewrite Heb; simpl;
    [|by eapply body_miss; eauto].
  assert (Hexch : exchangeable a b ↔
            class eb ≠ 0 ∧ class ea ≠ 0 ∧ ¬ class ea ≤ class eb).
  { unfold exchangeable.
    rewrite (combining_class_entry _ _ Hea), (combining_class_entry _ _ Heb). lia. }
  destruct (Z.eqb_spec (class eb) 0) as [H1|H1]; simpl.
  { eapply body_keep; eauto; try (by eexists). rewrite Hexch. tauto. }
  destruct (Z.eqb_spec (class ea) 0) as [H2|H2]; simpl.
  { eapply body_keep; eauto; try (by eexists). rewrite Hexch. tauto. }
  destruct (Z.leb_spec (class ea) (class eb)) as [H3|H3].
  { eapply body_keep; eauto; try (by eexists). rewrite Hexch. lia. }
  destruct (adjacent_split _ _ _ _ Ha Hb) as (l1 & l2 & Hres & Hl1).
  unfold store. rewrite (decide_True (P := (c < length res)%nat)) by lia.
  cbn [mbind outcome_bind].
  rewrite (decide_True (P := (S c < length (<[c:=b]> res))%nat))
    by (rewrite length_insert; lia).
  cbn [mbind outcome_bind].
  rewrite Hres at 2. rewrite (adjacent_insert _ _ _ _ _ _ _ Hl1).
  eapply body_swap; eauto; try (by eexists); [lia|]. rewrite Hexch. lia.
Qed.

(** A proof rule for the loop: [I] holds at the head of every turn, [Q]
    of the outcome. *)

Lemma ordering_loop_rule (I : list Z → nat → Prop) (Q : outcome (list Z) → Prop) :
  Q OutOfFuel → Q Fault →
  (∀ res count, I res count → (length res ≤ count)%nat → Q (Ok res)) →
  (∀ res count res' count', I res count → (1 ≤ count < length res)%nat →
     ordering_body res count = Ok (res', count') → I res' (S count')) →
  ∀ fuel res count, (1 ≤ count)%nat → I res count →
    Q (ordering_loop fuel res count).
Proof.
  intros Hfuel Hfault Hexit Hbody.
  induction fuel as [|fuel IH]; intros res count Hc HI; simpl.
  - case_decide; [done|]. eapply Hexit; [done|lia].
  - case_decide; [|eapply Hexit; [done|lia]].
    pose proof (Hbody res count) as Hstep.
    destruct (ordering_body_view res count) as [a b|a b|l1 a b l2];
      [lia|done|..]; simpl.
    + apply IH; [lia|]. eapply Hstep; [done|lia|done].
    + apply IH; [lia|]. eapply Hstep; [done|lia|done].
Qed.

Lemma ordering_body_Ok res count res' count' :
  (1 ≤ count < length res)%nat →
  ordering_body res count = Ok (res', count') →
  (res' = res ∧ count' = count ∧
     ∃ a b, res !! (count - 1)%nat = Some a ∧ res !! count = Some b ∧
       ¬ exchangeable a b) ∨
  (∃ l1 a b l2, res = l1 ++ a :: b :: l2 ∧ length l1 = (count - 1)%nat ∧
     exchangeable a b ∧
     res' = l1 ++ b :: int32 (uint32 a) :: l2 ∧
     S count' = if decide (1 < count)%nat then (count - 1)%nat else 2%nat).
Proof.
  intros Hc. destruct (ordering_body_view res count Hc) as [a b|a b|l1 a b l2];
    [done|..]; intros [= <- <-].
  - left. eauto 10.
  - right. exists l1, a, b, l2. split_and!; try done.
    repeat case_decide; lia.
Qed.

Lemma exchangeable_back a b :
  exchangeable a b → ¬ exchangeable b (int32 (uint32 a)).
Proof.
  unfold exchangeable. rewrite combining_class_int32_uint32. lia.
Qed.

Lemma ordering_loop_ordered fuel res out :
  ordering_loop fuel res 1 = Ok out → ordered out.
Proof.
  pose (I := λ (res : list Z) (count : nat),
    ∀ i a b, (S i < count)%nat → res !! i = Some a → res !! S i = Some b →
      ¬ exchangeable a b).
  revert out.
  apply (ordering_loop_rule I (λ r, ∀ out, r = Ok out → ordered out));
    try done.
  - intros res' count HI Hlen out [= <-] i a b Ha Hb.
    apply (HI i a b); [|done..]. apply lookup_lt_Some in Hb. lia.
  - intros res' count res'' count' HI Hlt Hbody.
    apply ordering_body_Ok in Hbody as
      [(-> & -> & a & b & Ha & Hb & Hab)|(l1 & a & b & l2 & -> & Hl1 & Hab & -> & ->)];
      [| |done].
    + intros i a' b' Hi Ha' Hb'.
      destruct (decide (S i = count)) as [<-|Hne]; [|apply (HI i); [lia|done..]].
      replace (S i - 1)%nat with i in Ha by lia. by simplify_eq.
    + case_decide.
      * intros i a' b' Hi. rewrite !lookup_app_l by lia.
        intros Ha' Hb'. apply (HI i a' b'); [lia|by rewrite lookup_app_l by lia..].
      * intros i a' b' Hi. assert (i = 0)%nat as -> by lia.
        destruct l1; [|simpl in Hl1; lia]. simpl.
        intros [= <-] [= <-]. by apply exchangeable_back.
  - intros i a b Hi. lia.
Qed.

(** Exchanging an inverted pair of neighbours removes exactly one
    inversion. *)

Lemma below_swap x l1 a b l2 :
  below x (l1 ++ a :: b :: l2) = below x (l1 ++ b :: a :: l2).
Proof.
  induction l1 as [|y l1 IH]; simpl.
  - by destruct (a <? x), (b <? x).
  - by rewrite IH.
Qed.

Lemma inversions_swap l1 a b l2 :
  b < a → inversions (l1 ++ a :: b :: l2) = S (inversions (l1 ++ b :: a :: l2)).
Proof.
  intros Hba. induction l1 as [|y l1 IH]; simpl.
  - destruct (Z.ltb_spec b a); [|lia]. destruct (Z.ltb_spec a b); lia.
  - rewrite below_swap, IH. lia.
Qed.

Lemma combining_class_swap l1 a b l2 :
  exchangeable a b →
  inversions (combining_class <$> l1 ++ a :: b :: l2)
  = S (inversions (combining_class <$> l1 ++ b :: int32 (uint32 a) :: l2)).
Proof.
  intros (_ & _ & Hba). rewrite !fmap_app, !fmap_cons.
  rewrite combining_class_int32_uint32. by apply inversions_swap.
Qed.

(** The loop ends within [2 * inversions + length - count] turns, and
    returns when every element has an entry. *)

Lemma ordering_loop_fuel fuel res count :
  (1 ≤ count)%nat →
  (2 * inversions (combining_class <$> res) + (length res - count) ≤ fuel)%nat →
  ordering_loop fuel res count ≠ OutOfFuel ∧
  (Forall (λ z, has_entry (uint32 z)) res →
   ∃ out, ordering_loop fuel res count = Ok out).
Proof.
  revert res count. induction fuel as [|fuel IH]; intros res count Hc Hfuel; simpl.
  { case_decide; [lia|]. split; [done|]. by eexists. }
  case_decide; [|split; [done|]; by eexists].
  destruct (ordering_body_view res count) as [a b Ha Hb Hmiss|a b|l1 a b l2 -> Hl1 Hea Heb Hab];
    [lia| | |]; simpl.
  - split; [done|]. intros Hall. rewrite Forall_forall in Hall.
    assert (has_entry (uint32 a)) as [ea Hea]
      by (eapply Hall, list_elem_of_lookup_2; done).
    assert (has_entry (uint32 b)) as [eb Heb]
      by (eapply Hall, list_elem_of_lookup_2; done).
    destruct Hmiss; congruence.
  - apply IH; lia.
  - rewrite (combining_class_swap _ _ _ _ Hab) in Hfuel.
    rewrite length_app in *. simpl in *.
    destruct (IH (l1 ++ b :: int32 (uint32 a) :: l2)
                (S (if decide (1 < count)%nat then (count - 2)%nat else count)))
      as [Hne Hok].
    { lia. }
    { rewrite length_app. simpl. case_decide; lia. }
    split; [done|]. intros Hall. apply Hok.
    rewrite !Forall_app, !Forall_cons in *.
    rewrite uint32_int32, uint32_uint32. tauto.
Qed.

Lemma ordering_loop_more fuel fuel' res count :
  (fuel ≤ fuel')%nat → ordering_loop fuel res count ≠ OutOfFuel →
  ordering_loop fuel' res count = ordering_loop fuel res count.
Proof.
  revert fuel' res count.
  induction fuel as [|fuel IH]; intros [|fuel'] res count Hle; simpl;
    case_decide; try done; try lia.
  destruct (ordering_body res count) as [st| | |]; simpl; try done.
  apply IH. lia.
Qed.

Lemma canonical_ordering_total res :
  Forall (λ z, has_entry (uint32 z)) res → ∃ out, canonical_ordering res = Ok out.
Proof. apply ordering_loop_fuel; unfold ordering_fuel; lia. Qed.

(** What the loop keeps. *)

Lemma ordering_loop_Forall (P : Z → Prop) fuel res out :
  (∀ a, P a → P (int32 (uint32 a))) →
  Forall P res → ordering_loop fuel res 1 = Ok out → Forall P out.
Proof.
  intros HP Hres. revert out.
  apply (ordering_loop_rule (λ res _, Forall P res)
           (λ r, ∀ out, r = Ok out → Forall P out)); try done.
  - by intros res' _ ? _ out [= <-].
  - intros res' count res'' count' HI Hlt Hbody.
    apply ordering_body_Ok in Hbody as
      [(-> & _)|(l1 & a & b & l2 & -> & _ & _ & -> & _)]; [done| |done].
    rewrite !Forall_app, !Forall_cons in HI |- *.
    destruct HI as (? & ? & ? & ?). auto.
Qed.

Lemma ordering_loop_length fuel res out :
  ordering_loop fuel res 1 = Ok out → length out = length res.
Proof.
  revert out.
  apply (ordering_loop_rule (λ res' _, length res' = length res)
           (λ r, ∀ out, r = Ok out → length out = length res)); try done.
  - by intros res' _ ? _ out [= <-].
  - intros res' count res'' count' HI Hlt Hbody.
    apply ordering_body_Ok in Hbody as
      [(-> & _)|(l1 & a & b & l2 & -> & _ & _ & -> & _)]; [done| |done].
    rewrite <- HI, !length_app. done.
Qed.

Lemma ordering_loop_Permutation fuel res out :
  Forall is_int32 res → ordering_loop fuel res 1 = Ok out → res ≡ₚ out.
Proof.
  intros Hres. revert out.
  apply (ordering_loop_rule (λ res' _, Forall is_int32 res' ∧ res ≡ₚ res')
           (λ r, ∀ out, r = Ok out → res ≡ₚ out)); try done.
  - by intros res' _ [_ ?] _ out [= <-].
  - intros res' count res'' count' [H32 HI] Hlt Hbody.
    apply ordering_body_Ok in Hbody as
      [(-> & _)|(l1 & a & b & l2 & -> & _ & _ & -> & _)]; [done| |done].
    rewrite !Forall_app, !Forall_cons in H32 |- *.
    destruct H32 as (? & Ha & ? & ?).
    rewrite int32_uint32, (int32_id a) by done. split; [done|].
    rewrite HI. apply Permutation_app_head, perm_swap.
Qed.

Lemma swap_starters l1 a b a' l2 i x :
  ¬ starter a → ¬ starter b → ¬ starter a' → starter x →
  (l1 ++ a :: b :: l2) !! i = Some x ↔ (l1 ++ b :: a' :: l2) !! i = Some x.
Proof.
  intros Ha Hb Ha' Hx. destruct (decide (i < length l1)%nat).
  - by rewrite !lookup_app_l by done.
  - rewrite !lookup_app_r by lia.
    destruct (i - length l1)%nat as [|[|j]]; simpl; [| |done];
      split; intros [= ->]; done.
Qed.

Lemma ordering_loop_starters fuel res out :
  ordering_loop fuel res 1 = Ok out →
  ∀ i x, starter x → res !! i = Some x ↔ out !! i = Some x.
Proof.
  revert out.
  apply (ordering_loop_rule
           (λ res' _, ∀ i x, starter x → res !! i = Some x ↔ res' !! i = Some x)
           (λ r, ∀ out, r = Ok out →
              ∀ i x, starter x → res !! i = Some x ↔ out !! i = Some x));
    try done.
  - by intros res' _ ? _ out [= <-].
  - intros res' count res'' count' HI Hlt Hbody.
    apply ordering_body_Ok in Hbody as
      [(-> & _)|(l1 & a & b & l2 & -> & _ & Hab & -> & _)]; [done| |done].
    intros i x Hx. rewrite (HI i x Hx).
    destruct Hab as (Ha & Hb & _).
    apply swap_starters; unfold starter; try done.
    by rewrite combining_class_int32_uint32.
Qed.

Lemma ordering_loop_noop fuel res out :
  ordered res → ordering_loop fuel res 1 = Ok out → out = res.
Proof.
  intros Hres. revert out.
  apply (ordering_loop_rule (λ res' _, res' = res)
           (λ r, ∀ out, r = Ok out → out = res)); try done.
  - by intros res' _ -> _ out [= <-].
  - intros res' count res'' count' -> Hlt Hbody.
    apply ordering_body_Ok in Hbody as
      [(-> & _)|(l1 & a & b & l2 & Heq & _ & Hab & _)]; [done| |done].
    destruct (adjacent_lookup l1 l2 a b) as [Ha Hb].
    rewrite <- Heq in Ha, Hb. by destruct (Hres _ _ _ Ha Hb).
Qed.

Lemma canonical_ordering_noop res :
  ordered res → Forall (λ z, has_entry (uint32 z)) res →
  canonical_ordering res = Ok res.
Proof.
  intros Hord Hall. destruct (canonical_ordering_total _ Hall) as [out Hout].
  rewrite Hout. f_equal. by eapply ordering_loop_noop.
Qed.

(** An array without an exchangeable pair of neighbours is sorted by
    class on every run of non-starters. *)

Lemma ordered_runs out pre run post :
  ordered out → out = pre ++ run ++ post →
  Forall (λ z, combining_class z ≠ 0) run →
  StronglySorted Z.le (combining_class <$> run).
Proof.
  intros Hord -> Hnz. apply Sorted_StronglySorted; [intros ???; lia|].
  revert pre Hord. induction Hnz as [|a run Ha Hrun IH]; intros pre Hord; simpl;
    constructor.
  - apply (IH (pre ++ [a])). by rewrite <- (assoc_L (++)).
  - destruct Hrun as [|b run' Hb _]; constructor. simpl in *.
    destruct (adjacent_lookup pre (run' ++ post) a b) as [Hla Hlb].
    pose proof (Hord _ _ _ Hla Hlb) as Hab. unfold exchangeable in Hab. lia.
Qed.

(** A call that returns went through a well-formed input. *)

Lemma size_codes_Ok rec cs size n :
  size_codes rec cs size = Ok n →
  Forall (λ c, ∃ m, rec c = Ok m) (until_zero cs).
Proof.
  revert size. induction cs as [|c cs IH]; intros size; simpl; [constructor|].
  destruct (Z.eqb_spec c 0); [constructor|].
  intros (m & Hm & H)%bind_Ok. constructor; eauto.
Qed.

Lemma get_decomposed_size_well_formed depth code n :
  get_decomposed_size depth code = Ok n → well_formed depth code.
Proof.
  revert code n. induction depth as [|depth IH]; intros code n; simpl; [done|].
  destruct (get_code_entry code) as [entry| | |]; simpl; try done.
  intros H. exists entry. split; [done|]. unfold decomposition.
  destruct (Z.eqb_spec (nth 0 (codes entry) 0) 0) as [H0|H0].
  - apply until_zero_nth in H0. rewrite H0. constructor.
  - apply size_codes_Ok in H. eapply Forall_impl; [done|].
    intros c [m Hm]. eauto.
Qed.

Lemma size_pass_well_formed depth input size n :
  size_pass depth input size = Ok n →
  Forall (well_formed depth) (uint32 <$> input).
Proof.
  revert size. induction input as [|x input IH]; intros size; simpl; [constructor|].
  intros (m & Hm & H)%bind_Ok.
  constructor; eauto using get_decomposed_size_well_formed.
Qed.

Lemma pg_sasl_prepare_Ok depth input out :
  pg_sasl_prepare depth input = Ok out →
  ∃ l, decompose_input depth input = Ok l ∧
    canonical_ordering (int32 <$> l) = Ok out.
Proof.
  intros H. assert (Hwf : Forall (well_formed depth) (uint32 <$> input)).
  { unfold pg_sasl_prepare in H. apply bind_Ok in H as (size & Hsize & _).
    by eapply size_pass_well_formed. }
  destruct (decompose_input_total _ _ Hwf) as [l Hl].
  exists l. split; [done|]. by rewrite <- (pg_sasl_prepare_decompose _ _ _ Hl).
Qed.

Lemma pg_sasl_prepare_content depth input out :
  pg_sasl_prepare depth input = Ok out →
  ∃ l, decompose_input depth input = Ok l ∧ int32 <$> l ≡ₚ out.
Proof.
  intros (l & Hl & Hout)%pg_sasl_prepare_Ok. exists l. split; [done|].
  eapply ordering_loop_Permutation; [|done].
  rewrite Forall_fmap. apply Forall_true. intros; apply int32_range.
Qed.

Lemma terminal_entries l :
  table_typed → Forall terminal l →
  Forall (λ z, terminal (uint32 z)) (int32 <$> l) ∧
  Forall (λ z, has_entry (uint32 z)) (int32 <$> l).
Proof.
  intros Ht Hl. rewrite !Forall_fmap.
  split; (eapply Forall_impl; [done|]); intros c Hc; simpl;
    (rewrite uint32_int32, uint32_id;
      [|destruct Hc as (entry & He & _); apply has_entry_uint32; [done|by eexists]]).
  - done.
  - destruct Hc as (entry & He & _). by eexists.
Qed.

Lemma pg_sasl_prepare_total depth input :
  table_typed → Forall (well_formed depth) (uint32 <$> input) →
  ∃ out, pg_sasl_prepare depth input = Ok out.
Proof.
  intros Ht Hwf. destruct (decompose_input_total _ _ Hwf) as [l Hl].
  rewrite (pg_sasl_prepare_decompose _ _ _ Hl).
  apply canonical_ordering_total, terminal_entries; [done|].
  by eapply decompose_input_terminal.
Qed.

(** C1. In the array that [pg_sasl_prepare] returns, every run of
    consecutive code points of non-zero combining class (a maximal one in
    particular, bounded by starters or by the ends of the array) has
    non-decreasing combining classes; and the call does return an array
    when the input code points and their descendants have entries. *)

Theorem pg_sasl_prepare_runs_ordered depth input :
  Forall (λ x, has_entry (uint32 x)) input →
  (∀ out, pg_sasl_prepare depth input = Ok out →
     ∀ pre run post, out = pre ++ run ++ post →
       Forall (λ z, combining_class z ≠ 0) run →
       StronglySorted Z.le (combining_class <$> run)) ∧
  (table_typed → Forall (well_formed depth) (uint32 <$> input) →
     ∃ out, pg_sasl_prepare depth input = Ok out).
Proof.
  intros _. split; [|apply pg_sasl_prepare_total].
  intros out (l & _ & Hout)%pg_sasl_prepare_Ok pre run post.
  apply ordered_runs. by eapply ordering_loop_ordered.
Qed.

(** C4. [pg_sasl_prepare] is idempotent on valid input: when the input
    code points and all their decomposition descendants have entries, the
    call returns an array, and the call on that array returns it again. *)

Theorem pg_sasl_prepare_idempotent depth x :
  table_typed → Forall (well_formed depth) (uint32 <$> x) →
  ∃ y, pg_sasl_prepare depth x = Ok y ∧ pg_sasl_prepare depth y = Ok y.
Proof.
  intros Ht Hwf. destruct (decompose_input_total _ _ Hwf) as [l Hl].
  pose proof (decompose_input_terminal _ _ _ Hl) as Hterm.
  destruct (terminal_entries l Ht Hterm) as [Hterm' Hent].
  destruct (canonical_ordering_total _ Hent) as [y Hy].
  exists y. rewrite (pg_sasl_prepare_decompose _ _ _ Hl). split; [done|].
  assert (Hy32 : Forall is_int32 y).
  { eapply (ordering_loop_Forall is_int32); [| |done].
    - intros; apply int32_range.
    - rewrite Forall_fmap. apply Forall_true. intros; apply int32_range. }
  assert (Hyterm : Forall (λ z, terminal (uint32 z)) y).
  { eapply (ordering_loop_Forall (λ z, terminal (uint32 z))); [|done..].
    intros a. by rewrite uint32_int32, uint32_uint32. }
  assert (Hyent : Forall (λ z, has_entry (uint32 z)) y).
  { eapply Forall_impl; [done|]. intros z (entry & He & _). by eexists. }
  assert (Hyord : ordered y) by (by eapply ordering_loop_ordered).
  destruct depth as [|depth].
  { destruct x as [|x0 x]; [|by inversion Hwf].
    injection Hl as <-. injection Hy as <-. done. }
  assert (Hdec : decompose_input (S depth) y = Ok (uint32 <$> y)).
  { unfold decompose_input. clear -Hyterm.
    induction Hyterm as [|z y Hz _ IH]; [done|]. cbn [fmap list_fmap decompose_all].
    rewrite (decompose_terminal_code _ _ Hz). cbn [mbind outcome_bind].
    by rewrite IH. }
  rewrite (pg_sasl_prepare_decompose _ _ _ Hdec).
  replace (int32 <$> (uint32 <$> y)) with y.
  { by apply canonical_ordering_noop. }
  clear -Hy32. induction Hy32 as [|z y Hz _ IH]; [done|].
  rewrite !fmap_cons, <- IH, int32_uint32, int32_id; done.
Qed.

(** C5. The ordering loop ends on every array: from index 1 it reaches
    its outcome within [ordering_fuel] turns, whatever larger bound it is
    given; and every turn that exchanges a pair leaves exactly one
    inverted pair of combining classes less. *)

Theorem ordering_loop_terminates res :
  (∃ r, r ≠ OutOfFuel ∧
     ∀ fuel, (ordering_fuel res ≤ fuel)%nat → ordering_loop fuel res 1 = r) ∧
  (∀ count res' count', (1 ≤ count < length res)%nat →
     ordering_body res count = Ok (res', count') →
     (res' = res ∧ count' = count) ∨
     (length res' = length res ∧
      S (inversions (combining_class <$> res'))
      = inversions (combining_class <$> res))).
Proof.
  split.
  - assert (Hne : ordering_loop (ordering_fuel res) res 1 ≠ OutOfFuel).
    { apply ordering_loop_fuel; unfold ordering_fuel; lia. }
    exists (ordering_loop (ordering_fuel res) res 1). split; [done|].
    intros fuel Hfuel. by apply ordering_loop_more.
  - intros count res' count' Hc Hbody.
    apply ordering_body_Ok in Hbody as
      [(-> & -> & _)|(l1 & a & b & l2 & -> & _ & Hab & -> & _)]; [by left| |done].
    right. split; [by rewrite !length_app|].
    by rewrite (combining_class_swap _ _ _ _ Hab).
Qed.

(** C7. Starters do not move in the reordering pass: a code point of
    combining class 0 is at an index of the output exactly when it is at
    that index of the input, so any two starters keep their order; and
    the pass returns when every element has an entry. *)

Theorem canonical_ordering_starters res :
  (∀ out, canonical_ordering res = Ok out →
     length out = length res ∧
     ∀ i x, starter x → res !! i = Some x ↔ out !! i = Some x) ∧
  (Forall (λ z, has_entry (uint32 z)) res →
     ∃ out, canonical_ordering res = Ok out).
Proof.
  split; [|apply canonical_ordering_total].
  intros out Hout. split.
  - by eapply ordering_loop_length.
  - by eapply ordering_loop_starters.
Qed.

(** Nothing in [pg_sasl_prepare] raises an error. *)

Lemma bind_no_error {A B} (m : outcome A) (f : A → outcome B) :
  (∀ msg, m ≠ Error msg) → (∀ a msg, f a ≠ Error msg) →
  ∀ msg, m ≫= f ≠ Error msg.
Proof.
  intros Hm Hf msg. destruct m as [a|msg'| |]; simpl; try done.
  by destruct (Hm msg').
Qed.

Lemma get_code_entry_no_error code msg : get_code_entry code ≠ Error msg.
Proof. unfold get_code_entry. by destruct (bsearch _ _). Qed.

Lemma store_no_error res i v msg : store res i v ≠ Error msg.
Proof. unfold store. by case_decide. Qed.

Lemma size_codes_no_error rec cs size :
  (∀ c msg, rec c ≠ Error msg) → ∀ msg, size_codes rec cs size ≠ Error msg.
Proof.
  intros Hrec. revert size. induction cs as [|c cs IH]; intros size; simpl; [done|].
  destruct (_ =? _); [done|]. apply bind_no_error; auto.
Qed.

Lemma get_decomposed_size_no_error depth code msg :
  get_decomposed_size depth code ≠ Error msg.
Proof.
  revert code msg. induction depth as [|depth IH]; intros code; simpl; [done|].
  apply bind_no_error; [apply get_code_entry_no_error|].
  intros entry. destruct (_ =? _); [done|]. by apply size_codes_no_error.
Qed.

Lemma decompose_codes_no_error rec cs st :
  (∀ c st msg, rec c st ≠ Error msg) →
  ∀ msg, decompose_codes rec cs st ≠ Error msg.
Proof.
  intros Hrec. revert st. induction cs as [|c cs IH]; intros st; simpl; [done|].
  destruct (_ =? _); [done|]. apply bind_no_error; auto.
Qed.

Lemma decompose_code_no_error depth code st msg :
  decompose_code depth code st ≠ Error msg.
Proof.
  revert code st msg. induction depth as [|depth IH]; intros code st; simpl; [done|].
  apply bind_no_error; [apply get_code_entry_no_error|].
  intros entry. destruct (_ =? _).
  - apply bind_no_error; [apply store_no_error|done].
  - by apply decompose_codes_no_error.
Qed.

Lemma size_pass_no_error depth input size msg :
  size_pass depth input size ≠ Error msg.
Proof.
  revert size msg. induction input as [|x input IH]; intros size; simpl; [done|].
  apply bind_no_error; [apply get_decomposed_size_no_error|auto].
Qed.

Lemma fill_pass_no_error depth input st msg :
  fill_pass depth input st ≠ Error msg.
Proof.
  revert st msg. induction input as [|x input IH]; intros st; simpl; [done|].
  apply bind_no_error; [apply decompose_code_no_error|auto].
Qed.

Lemma ordering_loop_no_error fuel res count msg :
  ordering_loop fuel res count ≠ Error msg.
Proof.
  revert res count msg. induction fuel as [|fuel IH]; intros res count; simpl;
    case_decide; try done.
  apply bind_no_error; [|auto].
  unfold ordering_body, load.
  repeat (apply bind_no_error; [|intros ?]);
    try apply get_code_entry_no_error; try apply store_no_error;
    try (by destruct (_ !! _)).
  destruct (_ || _); [done|]. destruct (_ <=? _); [done|].
  repeat (apply bind_no_error; [|intros ?]); try apply store_no_error. done.
Qed.

Lemma pg_sasl_prepare_no_error depth input msg :
  pg_sasl_prepare depth input ≠ Error msg.
Proof.
  unfold pg_sasl_prepare.
  apply bind_no_error; [apply size_pass_no_error|]. intros size.
  apply bind_no_error; [apply fill_pass_no_error|]. intros st.
  apply ordering_loop_no_error.
Qed.

Lemma size_pass_app depth pre rest size :
  size_pass depth (pre ++ rest) size
  = size_pass depth pre size ≫= size_pass depth rest.
Proof.
  revert size. induction pre as [|x pre IH]; intros size; simpl; [done|].
  destruct (get_decomposed_size depth (uint32 x)); simpl; auto.
Qed.

(** The lookup miss on any table. An input integer without an entry makes
    [pg_sasl_prepare] fault, on the failed assertion of [get_code_entry] or
    on the [NULL] it returns: no array is returned and no error is raised;
    and the outcome is the fault itself when the elements before the
    integer decompose within the depth. The array is an argument of the
    SQL function, and nothing checks it before the lookup. *)

Theorem lookup_miss_faults depth pre x post :
  get_code_entry (uint32 x) = Fault →
  (∀ out, pg_sasl_prepare depth (pre ++ x :: post) ≠ Ok out) ∧
  (∀ msg, pg_sasl_prepare depth (pre ++ x :: post) ≠ Error msg) ∧
  ((0 < depth)%nat → Forall (well_formed depth) (uint32 <$> pre) →
   pg_sasl_prepare depth (pre ++ x :: post) = Fault).
Proof.
  intros Hmiss. split_and!.
  - intros out H. unfold pg_sasl_prepare in H.
    apply bind_Ok in H as (size & Hsize & _).
    apply size_pass_well_formed in Hsize.
    rewrite fmap_app, Forall_app, fmap_cons, Forall_cons in Hsize.
    destruct Hsize as (_ & Hx & _). destruct depth as [|depth]; [done|].
    destruct Hx as (entry & He & _). congruence.
  - intros msg. apply pg_sasl_prepare_no_error.
  - intros Hdepth Hpre. destruct (decompose_input_total _ _ Hpre) as [l Hl].
    unfold pg_sasl_prepare.
    rewrite size_pass_app, (size_pass_decompose _ _ _ _ Hl). simpl.
    destruct depth as [|depth]; [lia|]. simpl. by rewrite Hmiss.
Qed.

(** ** Further properties of the lookup and of [pg_sasl_prepare] *)

Lemma sorted_unique_key base e1 e2 :
  StronglySorted (λ e1 e2, utf e1 < utf e2) base →
  e1 ∈ base → e2 ∈ base → utf e1 = utf e2 → e1 = e2.
Proof.
  intros Hs [i Hi]%list_elem_of_lookup_1 [j Hj]%list_elem_of_lookup_1 Heq.
  destruct (Nat.lt_trichotomy i j) as [H|[->|H]]; [|congruence|].
  - pose proof (sorted_lookup (λ e1 e2, utf e1 < utf e2) base i j _ _ Hs H Hi Hj).
    simpl in *. lia.
  - pose proof (sorted_lookup (λ e1 e2, utf e1 < utf e2) base j i _ _ Hs H Hj Hi).
    simpl in *. lia.
Qed.

Lemma get_code_entry_key code entry :
  table_sorted → entry ∈ SASLPrepConv → utf entry = code →
  get_code_entry code = Ok entry.
Proof.
  intros Hsorted Hin Hkey.
  pose proof (bsearch_sorted code SASLPrepConv Hsorted) as H.
  unfold get_code_entry. destruct (bsearch code SASLPrepConv) as [p|].
  - destruct H as [Hp Hpk]. f_equal.
    apply (sorted_unique_key SASLPrepConv); [done..|congruence].
  - by destruct (H entry Hin).
Qed.

(** X1. On a table sorted by code, the lookup returns an entry exactly
    when it is the entry of the table with that code, and misses exactly
    when no entry of the table has that code. *)

Theorem get_code_entry_exact code :
  table_sorted →
  (∀ entry, get_code_entry code = Ok entry ↔
     entry ∈ SASLPrepConv ∧ utf entry = code) ∧
  (get_code_entry code = Fault ↔
     ∀ entry, entry ∈ SASLPrepConv → utf entry ≠ code).
Proof.
  intros Hsorted. split.
  - intros entry. split; [apply get_code_entry_found|].
    intros [Hin Hkey]. by apply get_code_entry_key.
  - split.
    + intros Hmiss entry Hin Hkey.
      rewrite (get_code_entry_key code entry) in Hmiss; done.
    + intros Hnone. destruct (get_code_entry_cases code) as [[entry He]|]; [|done].
      apply get_code_entry_found in He as [Hin Hkey]. by destruct (Hnone entry Hin).
Qed.

(** X2. [pg_sasl_prepare] never raises an error, and it returns an array
    exactly when every input code point has an entry and a decomposition
    tree within the depth; on any other input it faults or exceeds the
    depth. *)

Theorem pg_sasl_prepare_returns_iff depth input :
  table_typed →
  ((∃ out, pg_sasl_prepare depth input = Ok out) ↔
     Forall (well_formed depth) (uint32 <$> input)) ∧
  (∀ msg, pg_sasl_prepare depth input ≠ Error msg).
Proof.
  intros Ht. split; [split|].
  - intros [out H]. unfold pg_sasl_prepare in H.
    apply bind_Ok in H as (size & Hsize & _). by eapply size_pass_well_formed.
  - by apply pg_sasl_prepare_total.
  - intros msg. apply pg_sasl_prepare_no_error.
Qed.

(** X3. The array that [pg_sasl_prepare] returns holds the decompositions
    of the input code points, each element as often as there: the
    reordering only permutes. *)

Theorem pg_sasl_prepare_permutes depth input out :
  pg_sasl_prepare depth input = Ok out →
  ∃ l, decompose_input depth input = Ok l ∧ int32 <$> l ≡ₚ out.
Proof.
  intros (l & Hl & Hout)%pg_sasl_prepare_Ok. exists l. split; [done|].
  eapply ordering_loop_Permutation; [|done].
  rewrite Forall_fmap. apply Forall_true. intros; apply int32_range.
Qed.

Lemma filter_class_swap c l1 a b l2 :
  combining_class a ≠ combining_class b →
  filter (λ z, combining_class z = c) (l1 ++ a :: b :: l2)
  = filter (λ z, combining_class z = c) (l1 ++ b :: a :: l2).
Proof.
  intros Hab. rewrite !filter_app. f_equal. rewrite !filter_cons.
  repeat case_decide; congruence.
Qed.

(** X4. The reordering pass is stable: the code points of one combining
    class, whatever the class, are in the output in the order they have
    in the input. *)

Theorem canonical_ordering_stable res out c :
  Forall is_int32 res → canonical_ordering res = Ok out →
  filter (λ z, combining_class z = c) out
  = filter (λ z, combining_class z = c) res.
Proof.
  intros Hres. revert out.
  apply (ordering_loop_rule
           (λ res' _, Forall is_int32 res' ∧
              filter (λ z, combining_class z = c) res'
              = filter (λ z, combining_class z = c) res)
           (λ r, ∀ out, r = Ok out →
              filter (λ z, combining_class z = c) out
              = filter (λ z, combining_class z = c) res)); try done.
  - by intros res' _ [_ ?] _ out [= <-].
  - intros res' count res'' count' [H32 HI] Hlt Hbody.
    apply ordering_body_Ok in Hbody as
      [(-> & _)|(l1 & a & b & l2 & -> & _ & Hab & -> & _)]; [done| |done].
    rewrite !Forall_app, !Forall_cons in H32 |- *.
    destruct H32 as (? & Ha & ? & ?).
    rewrite int32_uint32, (int32_id a) by done. split; [done|].
    rewrite <- HI. apply filter_class_swap.
    destruct Hab as (_ & _ & Hlt'). lia.
Qed.

Lemma decompose_input_terminal_id depth y :
  Forall (λ z, terminal (uint32 z)) y →
  decompose_input (S depth) y = Ok (uint32 <$> y).
Proof.
  unfold decompose_input.
  induction 1 as [|z y Hz _ IH]; [done|]. cbn [fmap list_fmap decompose_all].
  rewrite (decompose_terminal_code _ _ Hz). cbn [mbind outcome_bind].
  by rewrite IH.
Qed.

Lemma int32_uint32_id y : Forall is_int32 y → int32 <$> (uint32 <$> y) = y.
Proof.
  induction 1 as [|z y Hz _ IH]; [done|].
  by rewrite !fmap_cons, IH, int32_uint32, int32_id.
Qed.

(** X5. The fixed points of [pg_sasl_prepare] are the arrays of terminal
    code points without an exchangeable pair of neighbours: on them, and
    on them only, the call returns its input. *)

Theorem pg_sasl_prepare_fixed_point depth x :
  table_typed → Forall is_int32 x →
  pg_sasl_prepare (S depth) x = Ok x ↔
  Forall (λ z, terminal (uint32 z)) x ∧ ordered x.
Proof.
  intros Ht H32. split.
  - intros H. pose proof H as (l & Hl & Hout)%pg_sasl_prepare_Ok. split.
    + pose proof (decompose_input_terminal _ _ _ Hl) as Hterm.
      destruct (terminal_entries l Ht Hterm) as [Hterm' _].
      eapply (ordering_loop_Forall (λ z, terminal (uint32 z))); [|done..].
      intros a. by rewrite uint32_int32, uint32_uint32.
    + by eapply ordering_loop_ordered.
  - intros [Hterm Hord].
    rewrite (pg_sasl_prepare_decompose _ _ _ (decompose_input_terminal_id depth x Hterm)).
    rewrite int32_uint32_id by done. apply canonical_ordering_noop; [done|].
    eapply Forall_impl; [done|]. intros z (entry & He & _). by eexists.
Qed.

Lemma decompose_nonempty depth code l :
  decompose depth code = Ok l → l ≠ [].
Proof.
  revert code l. induction depth as [|depth IH]; intros code l; [done|].
  rewrite decompose_S.
  destruct (get_code_entry code) as [entry| | |]; simpl; try done.
  destruct (Z.eqb_spec (nth 0 (codes entry) 0) 0) as [H0|H0]; [by intros [= <-]|].
  unfold decomposition. destruct (codes entry) as [|c cs]; [done|].
  simpl in H0 |- *. destruct (Z.eqb_spec c 0); [done|]. simpl.
  intros (l1 & H1 & H)%bind_Ok. apply bind_Ok in H as (l2 & H2 & [= <-]).
  apply IH in H1. by destruct l1.
Qed.

Lemma decompose_input_length depth input l :
  decompose_input depth input = Ok l → (length input ≤ length l)%nat.
Proof.
  unfold decompose_input. revert l.
  induction input as [|x input IH]; intros l; [simpl; lia|].
  rewrite fmap_cons. cbn [decompose_all].
  intros (l1 & H1 & H)%bind_Ok. apply bind_Ok in H as (l2 & H2 & [= <-]).
  apply decompose_nonempty in H1. apply IH in H2.
  rewrite length_app. destruct l1; [done|]. simpl. lia.
Qed.

(** X6. The returned array has exactly as many elements as the first
    pass counted, and at least as many as the input: a code point never
    decomposes into nothing. *)

Theorem pg_sasl_prepare_length depth input out :
  pg_sasl_prepare depth input = Ok out →
  size_pass depth input 0 = Ok (length out) ∧ (length input ≤ length out)%nat.
Proof.
  intros (l & Hl & Hout)%pg_sasl_prepare_Ok.
  apply ordering_loop_length in Hout. rewrite length_fmap in Hout.
  rewrite Hout. split.
  - by rewrite (size_pass_decompose _ _ _ 0%nat Hl).
  - by eapply decompose_input_length.
Qed.

(** ** [utf8_conv_table] *)

Lemma count_codes_until_zero cs size :
  count_codes cs size = (size + length (until_zero cs))%nat.
Proof.
  revert size. induction cs as [|c cs IH]; intros size; simpl; [lia|].
  destruct (Z.eqb_spec c 0); simpl; [lia|]. rewrite IH. lia.
Qed.

Lemma until_zero_take cs : take (length (until_zero cs)) cs = until_zero cs.
Proof.
  induction cs as [|c cs IH]; simpl; [done|].
  destruct (Z.eqb_spec c 0); simpl; [done|]. by rewrite IH.
Qed.

Lemma until_zero_length cs : (length (until_zero cs) ≤ length cs)%nat.
Proof.
  induction cs as [|c cs IH]; simpl; [lia|].
  destruct (Z.eqb_spec c 0); simpl; lia.
Qed.

Lemma copy_codes_stored turns cs count decomp :
  (count + turns ≤ length cs)%nat → (count + turns ≤ length decomp)%nat →
  copy_codes turns cs count decomp
  = Ok (stored decomp count (int32 <$> take turns (drop count cs))).
Proof.
  revert count decomp.
  induction turns as [|turns IH]; intros count decomp Hcs Hdecomp; simpl.
  { by rewrite stored_nil. }
  unfold load. destruct (cs !! count) as [c|] eqn:Hc;
    [|apply lookup_ge_None in Hc; lia].
  simpl. rewrite store_stored by lia. simpl.
  rewrite IH by (rewrite ?stored_length; simpl; lia).
  replace (S count) with (count + length [int32 c])%nat at 1 by (simpl; lia).
  rewrite stored_app by (rewrite length_fmap, length_take, length_drop; simpl; lia).
  by rewrite (drop_S _ _ _ Hc).
Qed.

Lemma conv_table_tuple_entry entry :
  conv_table_tuple entry = Ok (entry_tuple entry).
Proof.
  unfold conv_table_tuple, entry_tuple, decomposition.
  rewrite count_codes_until_zero, Nat.add_0_l.
  pose proof (until_zero_length (codes entry)) as Hlen.
  destruct (until_zero (codes entry)) as [|c cs] eqn:Hcs; [done|].
  rewrite decide_False by done. rewrite <- Hcs in *.
  rewrite copy_codes_stored
    by (unfold new_intArrayType; rewrite ?length_replicate; lia).
  rewrite drop_0, until_zero_take. cbn [mbind outcome_bind].
  rewrite stored_whole
    by (unfold new_intArrayType; by rewrite length_replicate, length_fmap).
  done.
Qed.

Lemma conv_table_tuples_entries table tupstore :
  conv_table_tuples table tupstore = Ok (tupstore ++ (entry_tuple <$> table)).
Proof.
  revert tupstore. induction table as [|entry table IH]; intros tupstore; simpl.
  - by rewrite (right_id_L [] (++)).
  - rewrite conv_table_tuple_entry. simpl. by rewrite IH, <- (assoc_L (++)).
Qed.

(** X7. In a call that takes a materialized set of rows, [utf8_conv_table]
    returns one tuple per entry of the table, in the order of the table:
    the code, the class, and the codes before the first zero, [NULL] in
    their place when there is none. It returns nothing else, and no load
    or store leaves an array. *)

Theorem utf8_conv_table_tuples resultinfo result_type :
  (∀ rsinfo, resultinfo = Some rsinfo → is_ReturnSetInfo rsinfo = true →
     Z.land (allowedModes rsinfo) SFRM_Materialize ≠ 0 →
     result_type = TYPEFUNC_COMPOSITE →
     utf8_conv_table resultinfo result_type = Ok (entry_tuple <$> SASLPrepConv)) ∧
  (∀ tuples, utf8_conv_table resultinfo result_type = Ok tuples →
     tuples = entry_tuple <$> SASLPrepConv) ∧
  utf8_conv_table resultinfo result_type ≠ Fault.
Proof.
  unfold utf8_conv_table. split_and!.
  - intros rsinfo -> -> Hmodes ->. simpl.
    apply Z.eqb_neq in Hmodes. rewrite Hmodes. apply conv_table_tuples_entries.
  - intros tuples. destruct resultinfo as [rsinfo|]; [|done].
    destruct (is_ReturnSetInfo rsinfo); [|done]. simpl.
    destruct (_ =? _); [done|]. destruct result_type; try done.
    rewrite conv_table_tuples_entries. by intros [= <-].
  - destruct resultinfo as [rsinfo|]; [|done].
    destruct (is_ReturnSetInfo rsinfo); [|done]. simpl.
    destruct (_ =? _); [done|]. destruct result_type; try done.
    by rewrite conv_table_tuples_entries.
Qed.

(** X8. The dump and the lookup agree on a sorted table: an integer has
    an entry exactly when it is the code of a tuple that
    [utf8_conv_table] returns, and the lookup of the code of a tuple
    finds an entry of the class of the tuple, terminal exactly when the
    decomposition of the tuple is [NULL]. *)

Theorem utf8_conv_table_lookup resultinfo result_type tuples :
  table_sorted → table_typed →
  utf8_conv_table resultinfo result_type = Ok tuples →
  (∀ x, is_int32 x →
     has_entry (uint32 x) ↔ ∃ t, t ∈ tuples ∧ tuple_utf t = x) ∧
  (∀ t, t ∈ tuples →
     ∃ entry, get_code_entry (uint32 (tuple_utf t)) = Ok entry ∧
       tuple_class t = int16 (class entry) ∧
       (tuple_decomp t = None ↔ terminal (uint32 (tuple_utf t)))).
Proof.
  intros Hsorted Htyped Htuples.
  assert (tuples = entry_tuple <$> SASLPrepConv) as ->.
  { revert Htuples. unfold utf8_conv_table.
    destruct resultinfo as [rsinfo|]; [|done].
    destruct (is_ReturnSetInfo rsinfo); [|done]. simpl.
    destruct (_ =? _); [done|]. destruct result_type; try done.
    rewrite conv_table_tuples_entries. by intros [= <-]. }
  assert (Hkey : ∀ entry, entry ∈ SASLPrepConv →
            uint32 (int32 (utf entry)) = utf entry).
  { intros entry Hin. rewrite uint32_int32. apply uint32_id.
    unfold table_typed in Htyped. rewrite Forall_forall in Htyped. by apply Htyped. }
  split.
  - intros x Hx. split.
    + intros [entry He]. apply get_code_entry_found in He as [Hin Hutf].
      exists (entry_tuple entry). split; [by apply list_elem_of_fmap_2|].
      simpl. by rewrite Hutf, int32_uint32, int32_id.
    + intros (t & (entry & -> & Hin)%list_elem_of_fmap & <-). simpl.
      rewrite (Hkey entry Hin). exists entry. by apply get_code_entry_key.
  - intros t (entry & -> & Hin)%list_elem_of_fmap. simpl.
    rewrite (Hkey entry Hin).
    assert (He : get_code_entry (utf entry) = Ok entry)
      by (by apply get_code_entry_key).
    exists entry. split_and!; [done..|].
    unfold terminal. split.
    + intros Hnone. exists entry. split; [done|]. apply until_zero_nth.
      fold (decomposition entry). by destruct (decomposition entry).
    + intros (entry' & He' & Hd). assert (entry' = entry) as -> by congruence.
      apply until_zero_nth in Hd. unfold decomposition. by rewrite Hd.
Qed.

End Table.

(** ** The codec *)

(** Some concrete runs: "café" with a precomposed é, a lone continuation
    byte, and the empty string. *)

Example utf8_to_array_cafe :
  utf8_to_array PG_UTF8 [0x63; 0x61; 0x66; 0xC3; 0xA9] = Ok [0x63; 0x61; 0x66; 0xC3A9].
Proof. reflexivity. Qed.

Example array_to_utf8_cafe :
  array_to_utf8 [0x63; 0x61; 0x66; 0xC3A9] = Ok [0x63; 0x61; 0x66; 0xC3; 0xA9].
Proof. reflexivity. Qed.

Example utf8_to_array_four_bytes :
  utf8_to_array PG_UTF8 [0xF0; 0x9F; 0x98; 0x80] = Ok [0xF09F9880 - 2 ^ 32].
Proof. reflexivity. Qed.

Example array_to_utf8_four_bytes :
  array_to_utf8 [0xF09F9880 - 2 ^ 32] = Ok [0xF0; 0x9F; 0x98; 0x80].
Proof. reflexivity. Qed.

Example utf8_to_array_lone_continuation :
  utf8_to_array PG_UTF8 [0x61; 0x80] = Error "incorrect utf-8 input".
Proof. reflexivity. Qed.

Example utf8_to_array_empty : utf8_to_array PG_UTF8 [] = Ok [].
Proof. reflexivity. Qed.

Example array_to_utf8_empty : array_to_utf8 [] = Ok [].
Proof. reflexivity. Qed.

(** *** Bytes of a 32-bit integer *)

Lemma mask_byte code k :
  0 ≤ k → Z.land code (Z.shiftl 255 k) = (code / 2 ^ k) mod 256 * 2 ^ k.
Proof.
  intros Hk. rewrite <- Z.shiftl_mul_pow2, <- Z.shiftr_div_pow2 by done.
  change 256 with (2 ^ 8). rewrite <- Z.land_ones by done.
  apply Z.bits_inj'. intros n Hn.
  rewrite Z.land_spec, !Z.shiftl_spec, Z.land_spec by done.
  destruct (Z.lt_ge_cases n k).
  - rewrite !(Z.testbit_neg_r _ (n - k)) by lia. by rewrite !andb_false_r.
  - rewrite Z.shiftr_spec by lia. by replace (n - k + k) with n by lia.
Qed.

Lemma mask_byte_eqb code k :
  0 ≤ k →
  (Z.land code (Z.shiftl 255 k) =? 0) = ((code / 2 ^ k) mod 256 =? 0).
Proof.
  intros Hk. rewrite mask_byte by done.
  assert (0 < 2 ^ k) by (apply Z.pow_pos_nonneg; lia).
  destruct (Z.eqb_spec ((code / 2 ^ k) mod 256) 0) as [->|Hne]; [done|].
  apply Z.eqb_neq. nia.
Qed.

Lemma char_shiftr code k : 0 ≤ k → char (Z.shiftr code k) = (code / 2 ^ k) mod 256.
Proof. intros. unfold char. by rewrite Z.shiftr_div_pow2. Qed.

Lemma until_zero_terminated l rest :
  Forall (λ b, b ≠ 0) l → until_zero (l ++ 0 :: rest) = l.
Proof.
  induction 1 as [|b l Hb _ IH]; simpl; [done|].
  destruct (Z.eqb_spec b 0); [done|]. by rewrite IH.
Qed.

(** *** Packing and unpacking one character *)

Lemma lor_disjoint a lo k :
  0 ≤ k → 0 ≤ lo < 2 ^ k → a mod 2 ^ k = 0 → Z.lor a lo = a + lo.
Proof.
  intros Hk Hlo Ha.
  assert (Hland : Z.land a lo = 0).
  { apply Z.bits_inj'. intros n Hn. rewrite Z.land_spec, Z.bits_0.
    destruct (Z.lt_ge_cases n k).
    - rewrite <- (Z.mod_pow2_bits_low a k n) by lia. by rewrite Ha, Z.bits_0.
    - rewrite <- (Z.mod_small lo (2 ^ k)) by lia.
      rewrite Z.mod_pow2_bits_high by lia. apply andb_false_r. }
  by rewrite <- Z.lxor_lor, <- Z.add_nocarry_lxor.
Qed.

Lemma nonzero_bytes_packed b3 b2 b1 b0 :
  0 ≤ b3 < 256 → 0 ≤ b2 < 256 → 0 ≤ b1 < 256 → 0 ≤ b0 < 256 →
  nonzero_bytes (int32 (b3 * 2 ^ 24 + b2 * 2 ^ 16 + b1 * 2 ^ 8 + b0))
  = filter (λ b, b ≠ 0) [b3; b2; b1; b0].
Proof.
  intros. unfold nonzero_bytes, nonzero_of, big_endian.
  rewrite uint32_int32. unfold uint32.
  change (2 ^ 32) with 4294967296.
  change (2 ^ 24) with 16777216. change (2 ^ 16) with 65536. change (2 ^ 8) with 256.
  rewrite (Z.mod_small _ 4294967296) by lia.
  assert (E3 : (b3 * 16777216 + b2 * 65536 + b1 * 256 + b0) / 16777216 mod 256 = b3)
    by (Z.div_mod_to_equations; lia).
  assert (E2 : (b3 * 16777216 + b2 * 65536 + b1 * 256 + b0) / 65536 mod 256 = b2)
    by (Z.div_mod_to_equations; lia).
  assert (E1 : (b3 * 16777216 + b2 * 65536 + b1 * 256 + b0) / 256 mod 256 = b1)
    by (Z.div_mod_to_equations; lia).
  assert (E0 : (b3 * 16777216 + b2 * 65536 + b1 * 256 + b0) mod 256 = b0)
    by (Z.div_mod_to_equations; lia).
  by rewrite E3, E2, E1, E0.
Qed.

Lemma pack_char_bytes s l :
  byte_string s → 1 ≤ l ≤ 4 → (Z.to_nat l ≤ length s)%nat →
  ∃ iutf, pack_char s l = Ok (iutf, drop (Z.to_nat l) s) ∧
    nonzero_bytes (int32 iutf) = take (Z.to_nat l) s.
Proof.
  intros Hs Hl Hlen.
  assert (Hcases : l = 1 ∨ l = 2 ∨ l = 3 ∨ l = 4) by lia.
  destruct Hcases as [-> | [-> | [-> | ->]]].
  - destruct s as [|b1 s]; [simpl in Hlen; lia|].
    apply Forall_cons in Hs as [Hb1 _].
    eexists. split; [reflexivity|]. cbn [byte_at nth].
    replace (uint32 b1) with (0 * 2 ^ 24 + 0 * 2 ^ 16 + 0 * 2 ^ 8 + b1)
      by (rewrite uint32_id; pow_lia).
    rewrite nonzero_bytes_packed by pow_lia.
    rewrite !filter_cons, filter_nil. repeat case_decide; try done; lia.
  - destruct s as [|b1 [|b2 s]]; try (simpl in Hlen; lia).
    apply Forall_cons in Hs as [Hb1 Hs]. apply Forall_cons in Hs as [Hb2 _].
    eexists. split; [reflexivity|]. cbn [byte_at nth].
    rewrite Z.shiftl_mul_pow2, !uint32_id by pow_lia.
    rewrite (lor_disjoint _ _ 8) by pow_lia.
    replace (b1 * 2 ^ 8 + b2) with (0 * 2 ^ 24 + 0 * 2 ^ 16 + b1 * 2 ^ 8 + b2) by pow_lia.
    rewrite nonzero_bytes_packed by pow_lia.
    rewrite !filter_cons, filter_nil. repeat case_decide; try done; lia.
  - destruct s as [|b1 [|b2 [|b3 s]]]; try (simpl in Hlen; lia).
    apply Forall_cons in Hs as [Hb1 Hs]. apply Forall_cons in Hs as [Hb2 Hs].
    apply Forall_cons in Hs as [Hb3 _].
    eexists. split; [reflexivity|]. cbn [byte_at nth].
    rewrite !Z.shiftl_mul_pow2, !uint32_id by pow_lia.
    rewrite (lor_disjoint (b1 * 2 ^ 16) (b2 * 2 ^ 8) 16) by pow_lia.
    rewrite (lor_disjoint _ b3 8) by pow_lia.
    replace (b1 * 2 ^ 16 + b2 * 2 ^ 8 + b3)
      with (0 * 2 ^ 24 + b1 * 2 ^ 16 + b2 * 2 ^ 8 + b3) by pow_lia.
    rewrite nonzero_bytes_packed by pow_lia.
    rewrite !filter_cons, filter_nil. repeat case_decide; try done; lia.
  - destruct s as [|b1 [|b2 [|b3 [|b4 s]]]]; try (simpl in Hlen; lia).
    apply Forall_cons in Hs as [Hb1 Hs]. apply Forall_cons in Hs as [Hb2 Hs].
    apply Forall_cons in Hs as [Hb3 Hs]. apply Forall_cons in Hs as [Hb4 _].
    eexists. split; [reflexivity|]. cbn [byte_at nth].
    rewrite !Z.shiftl_mul_pow2, !uint32_id by pow_lia.
    rewrite (lor_disjoint (b1 * 2 ^ 24) (b2 * 2 ^ 16) 24) by pow_lia.
    rewrite (lor_disjoint _ (b3 * 2 ^ 8) 16) by pow_lia.
    rewrite (lor_disjoint _ b4 8) by pow_lia.
    rewrite nonzero_bytes_packed by pow_lia.
    rewrite !filter_cons, filter_nil. repeat case_decide; try done; lia.
Qed.

(** *** [array_to_utf8] *)

Lemma code_size_bytes code size :
  code_size code size = (size + length (nonzero_of code))%nat.
Proof.
  unfold code_size, nonzero_of, big_endian.
  change 0xff000000 with (Z.shiftl 255 24). change 0x00ff0000 with (Z.shiftl 255 16).
  change 0x0000ff00 with (Z.shiftl 255 8). change 0x000000ff with (Z.shiftl 255 0).
  rewrite !mask_byte_eqb by done. change (2 ^ 0) with 1. rewrite Z.div_1_r.
  generalize ((code / 2 ^ 24) mod 256) ((code / 2 ^ 16) mod 256)
    ((code / 2 ^ 8) mod 256) (code mod 256).
  intros c3 c2 c1 c0. rewrite !filter_cons, filter_nil.
  destruct (Z.eqb_spec c3 0), (Z.eqb_spec c2 0), (Z.eqb_spec c1 0),
    (Z.eqb_spec c0 0); repeat case_decide; try done; simpl; lia.
Qed.

Lemma put_if_stored (skip : bool) c res cur l :
  let l' := if skip then [] else [char c] in
  (cur + length (l ++ l') ≤ length res)%nat →
  (if skip then Ok (stored res cur l, (cur + length l)%nat)
   else put_char (stored res cur l, (cur + length l)%nat) c)
  = Ok (stored res cur (l ++ l'), (cur + length (l ++ l'))%nat).
Proof.
  destruct skip; simpl; rewrite length_app; simpl; intros Hlen.
  - rewrite (right_id_L [] (++)). do 2 f_equal. lia.
  - unfold put_char. simpl.
    rewrite store_stored by (rewrite stored_length; lia). simpl.
    rewrite stored_app by (simpl; lia). do 2 f_equal. lia.
Qed.

Lemma put_if_first (skip : bool) c res cur :
  let l' := if skip then [] else [char c] in
  (cur + length l' ≤ length res)%nat →
  (if skip then Ok (res, cur) else put_char (res, cur) c)
  = Ok (stored res cur l', (cur + length l')%nat).
Proof.
  intros l' Hlen. pose proof (put_if_stored skip c res cur []) as H.
  simpl in H. rewrite stored_nil, Nat.add_0_r in H. by apply H.
Qed.

Lemma code_fill_bytes code res cur :
  let l := nonzero_of code in
  (cur + length l ≤ length res)%nat →
  code_fill code (res, cur) = Ok (stored res cur l, (cur + length l)%nat).
Proof.
  unfold code_fill, nonzero_of, big_endian.
  change 0xff000000 with (Z.shiftl 255 24). change 0x00ff0000 with (Z.shiftl 255 16).
  change 0x0000ff00 with (Z.shiftl 255 8). change 0x000000ff with (Z.shiftl 255 0).
  rewrite !mask_byte_eqb by done. change (2 ^ 0) with 1. rewrite Z.div_1_r.
  set (c3 := (code / 2 ^ 24) mod 256). set (c2 := (code / 2 ^ 16) mod 256).
  set (c1 := (code / 2 ^ 8) mod 256). set (c0 := code mod 256).
  assert (Hfilter : filter (λ b, b ≠ 0) [c3; c2; c1; c0]
    = ((((if c3 =? 0 then [] else [char (Z.shiftr code 24)])
         ++ if c2 =? 0 then [] else [char (Z.shiftr code 16)])
        ++ if c1 =? 0 then [] else [char (Z.shiftr code 8)])
       ++ if c0 =? 0 then [] else [char code])).
  { rewrite !char_shiftr by done. unfold char. fold c3 c2 c1 c0.
    clearbody c3 c2 c1 c0. rewrite !filter_cons, filter_nil.
    destruct (Z.eqb_spec c3 0), (Z.eqb_spec c2 0), (Z.eqb_spec c1 0),
      (Z.eqb_spec c0 0); repeat case_decide; done. }
  simpl. rewrite Hfilter. clear Hfilter. intros Hlen.
  rewrite put_if_first by (revert Hlen; rewrite !length_app; lia).
  cbn [mbind outcome_bind].
  rewrite put_if_stored by (revert Hlen; rewrite !length_app; lia).
  cbn [mbind outcome_bind].
  rewrite put_if_stored by (revert Hlen; rewrite !length_app; lia).
  cbn [mbind outcome_bind].
  by rewrite put_if_stored.
Qed.

Lemma code_size_nonzero x size :
  code_size (uint32 x) size = (size + length (nonzero_bytes x))%nat.
Proof. apply code_size_bytes. Qed.

Lemma code_fill_nonzero x res cur :
  (cur + length (nonzero_bytes x) ≤ length res)%nat →
  code_fill (uint32 x) (res, cur)
  = Ok (stored res cur (nonzero_bytes x), (cur + length (nonzero_bytes x))%nat).
Proof. apply code_fill_bytes. Qed.

Lemma string_size_bytes input size :
  string_size input size
  = (size + length (concat (nonzero_bytes <$> input)))%nat.
Proof.
  revert size. induction input as [|x input IH]; intros size; [simpl; lia|].
  rewrite fmap_cons. cbn [string_size concat].
  rewrite IH, code_size_nonzero, length_app. lia.
Qed.

Lemma string_fill_bytes input res cur :
  let l := concat (nonzero_bytes <$> input) in
  (cur + length l ≤ length res)%nat →
  string_fill input (res, cur) = Ok (stored res cur l, (cur + length l)%nat).
Proof.
  revert res cur. induction input as [|x input IH]; intros res cur.
  - simpl. intros _. rewrite stored_nil. do 2 f_equal. lia.
  - rewrite fmap_cons. cbn [string_fill concat]. rewrite length_app. intros Hlen.
    rewrite code_fill_nonzero by lia. cbn [mbind outcome_bind].
    rewrite IH by (rewrite stored_length; lia).
    rewrite stored_app by lia. do 2 f_equal. lia.
Qed.

Lemma nonzero_bytes_nonzero input :
  Forall (λ b, b ≠ 0) (concat (nonzero_bytes <$> input)).
Proof.
  apply Forall_concat, Forall_fmap, Forall_true. intros x.
  unfold nonzero_bytes, nonzero_of. apply Forall_forall.
  by intros b [Hb _]%list_elem_of_filter.
Qed.

Lemma array_to_utf8_bytes input :
  array_to_utf8 input = Ok (concat (nonzero_bytes <$> input)).
Proof.
  unfold array_to_utf8. rewrite string_size_bytes, Nat.add_0_l.
  set (l := concat (nonzero_bytes <$> input)).
  assert (Hres : length (replicate (S (length l)) 0) = S (length l))
    by apply length_replicate.
  revert Hres. generalize (replicate (S (length l)) 0). intros res Hres.
  rewrite string_fill_bytes by (fold l; lia). fold l.
  cbn [mbind outcome_bind fst snd].
  rewrite store_stored by (rewrite stored_length; lia).
  cbn [mbind outcome_bind].
  rewrite stored_app by (simpl; lia).
  rewrite decide_True by done.
  rewrite stored_whole by (rewrite length_app; simpl; lia).
  unfold cstring_to_text. f_equal. apply until_zero_terminated.
  apply nonzero_bytes_nonzero.
Qed.

(** C10. [array_to_utf8] emits, for each input integer, exactly the bytes
    of its four-byte big-endian representation that are not zero, most
    significant first. A zero byte is skipped even below a non-zero one,
    the integer 0 contributes nothing, and so the function is not
    injective: [[0]] and the empty array give the same string. *)

Theorem array_to_utf8_nonzero_bytes input :
  array_to_utf8 input = Ok (concat (nonzero_bytes <$> input)) ∧
  array_to_utf8 [0x61000062] = Ok [0x61; 0x62] ∧
  nonzero_bytes 0 = [] ∧
  array_to_utf8 [0] = array_to_utf8 [].
Proof. split; [apply array_to_utf8_bytes|done]. Qed.

(** *** [utf8_to_array] *)

Lemma byte_forall (P : Z → bool) :
  forallb P (Z.of_nat <$> seq 0 256) = true → ∀ b, 0 ≤ b < 256 → P b = true.
Proof.
  intros H b Hb. rewrite forallb_forall in H. apply H.
  apply in_map_iff. exists (Z.to_nat b). split; [lia|]. apply in_seq. lia.
Qed.

Lemma pg_utf_mblen_byte b s :
  0 ≤ b < 256 →
  pg_utf_mblen (b :: s) =
  if b <? 0x80 then 1 else if b <? 0xC0 then 1 else if b <? 0xE0 then 2
  else if b <? 0xF0 then 3 else if b <? 0xF8 then 4 else 1.
Proof.
  intros Hb. unfold pg_utf_mblen, byte_at. cbn [nth].
  apply Z.eqb_eq.
  apply (byte_forall (λ b, (if Z.land b 128 =? 0 then 1 else if Z.land b 224 =? 192 then 2 else if Z.land b 240 =? 224 then 3 else if Z.land b 248 =? 240 then 4 else 1) =? (if b <? 128 then 1 else if b <? 192 then 1 else if b <? 224 then 2 else if b <? 240 then 3 else if b <? 248 then 4 else 1))); [|done].
  by vm_compute.
Qed.

Lemma legal_utf8_cons b1 r1 :
  legal_utf8 (b1 :: r1) =
    if legal_one b1 then legal_utf8 r1
    else
      match r1 with
      | [] => false
      | b2 :: r2 =>
        if legal_two b1 b2 then legal_utf8 r2
        else
          match r2 with
          | [] => false
          | b3 :: r3 =>
            if legal_three b1 b2 b3 then legal_utf8 r3
            else
              match r3 with
              | [] => false
              | b4 :: r4 =>
                if legal_four b1 b2 b3 b4 then legal_utf8 r4 else false
              end
          end
      end.
Proof. done. Qed.

Lemma first_unit b1 r1 :
  0 < b1 < 256 → byte_string r1 →
  let s := b1 :: r1 in
  let l := pg_utf_mblen s in
  if pg_utf8_islegal s l
  then 1 ≤ l ≤ 4 ∧ (Z.to_nat l ≤ length s)%nat ∧
       legal_utf8 s = legal_utf8 (drop (Z.to_nat l) s)
  else legal_utf8 s = false.
Proof.
  intros Hb1 Hr1. cbv zeta. rewrite pg_utf_mblen_byte by lia.
  rewrite legal_utf8_cons.
  assert (Hshape : match r1 with
    | b2 :: b3 :: b4 :: _ => 0 < b2 < 256 ∧ 0 < b3 < 256 ∧ 0 < b4 < 256
    | b2 :: b3 :: _ => 0 < b2 < 256 ∧ 0 < b3 < 256
    | b2 :: _ => 0 < b2 < 256
    | [] => True end).
  { destruct Hr1 as [|b2 r2 ? Hr2]; [done|]. destruct Hr2 as [|b3 r3 ? Hr3]; [done|].
    by destruct Hr3. }
  clear Hr1.
  destruct (Z.ltb_spec b1 0x80); [|destruct (Z.ltb_spec b1 0xC0);
    [|destruct (Z.ltb_spec b1 0xE0); [|destruct (Z.ltb_spec b1 0xF0);
      [|destruct (Z.ltb_spec b1 0xF8)]]]].
  all: cbv iota;
    change (Z.to_nat 1) with 1%nat; change (Z.to_nat 2) with 2%nat;
    change (Z.to_nat 3) with 3%nat; change (Z.to_nat 4) with 4%nat.
  all: destruct r1 as [|b2 [|b3 [|b4 r4]]].
  all: unit_case.
Qed.

(** The two loops of [utf8_to_array] on a byte string: both go through
    a legal string, producing one integer per character, whose non-zero
    bytes are the bytes of the character; the first stops with an error on
    a string that is not legal. *)

Lemma codec_loops n bytes :
  (length bytes ≤ n)%nat → byte_string bytes →
  if legal_utf8 bytes
  then ∃ arr,
    (∀ size, count_chars n bytes size = Ok (size + length arr)%nat) ∧
    (∀ res cur, (cur + length arr ≤ length res)%nat →
       fill_chars n bytes (res, cur)
       = Ok (stored res cur arr, (cur + length arr)%nat)) ∧
    concat (nonzero_bytes <$> arr) = bytes
  else ∀ size, count_chars n bytes size = Error "incorrect utf-8 input".
Proof.
  revert bytes. induction n as [|n IH]; intros [|b1 r1] Hlen Hbytes;
    try (simpl in Hlen; lia).
  - exists []. split_and!; [intros; simpl; f_equal; lia| |done].
    intros res cur _. simpl. rewrite stored_nil. do 2 f_equal. lia.
  - exists []. split_and!; [intros; simpl; f_equal; lia| |done].
    intros res cur _. simpl. rewrite stored_nil. do 2 f_equal. lia.
  - pose proof Hbytes as Hs. apply Forall_cons in Hbytes as [Hb1 Hr1].
    pose proof (first_unit b1 r1 Hb1 Hr1) as Hunit. cbv zeta in Hunit.
    set (s := b1 :: r1) in *. set (l := pg_utf_mblen s) in *.
    assert (Hhead : (byte_at s 0 =? 0) = false) by (apply Z.eqb_neq; unfold s, byte_at; simpl; lia).
    cbn [count_chars fill_chars]. rewrite Hhead. fold l.
    destruct (pg_utf8_islegal s l); [|by rewrite Hunit].
    destruct Hunit as (Hl & Hle & ->). cbn [negb].
    assert (Hdrop : (length (drop (Z.to_nat l) s) ≤ n)%nat).
    { rewrite length_drop. simpl in Hlen |- *. lia. }
    specialize (IH (drop (Z.to_nat l) s) Hdrop (Forall_drop _ _ _ Hs)).
    destruct (legal_utf8 (drop (Z.to_nat l) s)); [|done].
    destruct IH as (arr & Hcount & Hfill & Hbytes).
    destruct (pack_char_bytes s l Hs Hl Hle) as (iutf & Hpack & Hunpack).
    exists (int32 iutf :: arr). split_and!.
    + intros size. rewrite Hcount. simpl. f_equal. lia.
    + intros res cur Hres. simpl in Hres. rewrite Hpack.
      cbn [mbind outcome_bind fst snd].
      rewrite store_stored by lia. cbn [mbind outcome_bind].
      replace (S cur) with (cur + length [int32 iutf])%nat by (simpl; lia).
      rewrite Hfill by (rewrite stored_length; simpl; lia).
      rewrite stored_app by (simpl; lia). simpl. do 2 f_equal. lia.
    + rewrite fmap_cons. cbn [concat].
      by rewrite Hunpack, Hbytes, take_drop.
Qed.

Lemma utf8_to_array_legal bytes :
  byte_string bytes → legal_utf8 bytes = true →
  ∃ arr, utf8_to_array PG_UTF8 bytes = Ok arr ∧
    concat (nonzero_bytes <$> arr) = bytes.
Proof.
  intros Hbytes Hlegal.
  pose proof (codec_loops (length bytes) bytes (le_n _) Hbytes) as H.
  rewrite Hlegal in H. destruct H as (arr & Hcount & Hfill & Hback).
  exists arr. split; [|done]. unfold utf8_to_array. simpl.
  rewrite Hcount. simpl.
  rewrite Hfill by (unfold new_intArrayType; rewrite length_replicate; lia).
  simpl. unfold new_intArrayType. rewrite length_replicate.
  rewrite decide_True by done.
  by rewrite stored_whole by (by rewrite length_replicate).
Qed.

(** C2. For a legally encoded UTF-8 byte string without an embedded
    NUL, [utf8_to_array] returns an array from which [array_to_utf8] gives
    back the very bytes; consequently decoding the re-encoded string gives
    the same array again. *)

Theorem utf8_round_trip bytes :
  byte_string bytes → legal_utf8 bytes = true →
  ∃ arr, utf8_to_array PG_UTF8 bytes = Ok arr ∧
    array_to_utf8 arr = Ok bytes ∧
    array_to_utf8 arr ≫= utf8_to_array PG_UTF8 = Ok arr.
Proof.
  intros Hbytes Hlegal.
  destruct (utf8_to_array_legal bytes Hbytes Hlegal) as (arr & Harr & Hback).
  exists arr. rewrite array_to_utf8_bytes, Hback. by split_and!.
Qed.

(** C9. On a byte string that is not legally encoded UTF-8 (a unit of
    illegal length, with an illegal continuation byte, or overlong),
    [utf8_to_array] fails as a whole with the error of malformed input: it
    returns no array. *)


(** ** Further properties of the codec *)

Lemma nonzero_of_bytes code : byte_string (nonzero_of code) ∧ (length (nonzero_of code) ≤ 4)%nat.
Proof.
  unfold nonzero_of, big_endian. split.
  - apply Forall_forall. intros b [Hb Hin]%list_elem_of_filter.
    assert (0 ≤ b < 256); [|lia].
    repeat (apply elem_of_cons in Hin as [->|Hin];
            [apply Z.mod_pos_bound; lia|]).
    by apply not_elem_of_nil in Hin.
  - etrans; [apply length_filter|]. done.
Qed.

(** X9. [array_to_utf8] returns on every array: the assertion on the
    size holds and no store leaves the buffer. The string it returns has
    no zero byte and at most four bytes per integer. *)
Theorem array_to_utf8_text input :
  ∃ out, array_to_utf8 input = Ok out ∧ byte_string out ∧
    (length out ≤ 4 * length input)%nat.
Proof.
  exists (concat (nonzero_bytes <$> input)).
  split; [apply array_to_utf8_bytes|].
  induction input as [|x input [IH1 IH2]]; [by split; [constructor|]|].
  rewrite fmap_cons. cbn [concat].
  destruct (nonzero_of_bytes (uint32 x)) as [Hb Hl].
  split; [by apply Forall_app|].
  rewrite length_app. unfold nonzero_bytes at 1. simpl. lia.
Qed.

(** X10. [array_to_utf8] of two arrays one after the other is the two
    strings one after the other. *)
Theorem array_to_utf8_app a b :
  array_to_utf8 (a ++ b)
  = x ← array_to_utf8 a; y ← array_to_utf8 b; Ok (x ++ y).
Proof. rewrite !array_to_utf8_bytes. simpl. by rewrite fmap_app, concat_app. Qed.

Lemma pg_utf_mblen_range s : 1 ≤ pg_utf_mblen s ≤ 4.
Proof. unfold pg_utf_mblen. repeat (destruct (_ =? _)); lia. Qed.

Lemma byte_at_lookup s i : byte_at s i ≠ 0 → (i < length s)%nat.
Proof.
  unfold byte_at. intros H. destruct (decide (i < length s)%nat); [done|].
  rewrite nth_overflow in H by lia. done.
Qed.

Lemma pg_utf8_islegal_fits s l :
  1 ≤ l ≤ 4 → byte_at s 0 ≠ 0 → pg_utf8_islegal s l = true →
  (Z.to_nat l ≤ length s)%nat.
Proof.
  intros Hl Hhead. apply byte_at_lookup in Hhead as Hlen.
  assert (Hcases : l = 1 ∨ l = 2 ∨ l = 3 ∨ l = 4) by lia.
  unfold pg_utf8_islegal.
  destruct Hcases as [-> | [-> | [-> | ->]]]; cbn [Z.eqb Pos.eqb].
  - intros _. change (Z.to_nat 1) with 1%nat. lia.
  - intros H. change (Z.to_nat 2) with 2%nat.
    enough (byte_at s 1 ≠ 0) as H1 by (apply byte_at_lookup in H1; lia).
    intros H1. rewrite H1 in H. revert H. cmp; done.
  - intros H. change (Z.to_nat 3) with 3%nat.
    enough (byte_at s 2 ≠ 0) as H1 by (apply byte_at_lookup in H1; lia).
    intros H1. rewrite H1 in H. revert H. cmp; done.
  - intros H. change (Z.to_nat 4) with 4%nat.
    enough (byte_at s 3 ≠ 0) as H1 by (apply byte_at_lookup in H1; lia).
    intros H1. rewrite H1 in H. revert H. cmp; done.
Qed.

Lemma pack_char_Ok s l :
  1 ≤ l ≤ 4 → ∃ iutf, pack_char s l = Ok (iutf, drop (Z.to_nat l) s).
Proof.
  intros Hl. assert (Hcases : l = 1 ∨ l = 2 ∨ l = 3 ∨ l = 4) by lia.
  destruct Hcases as [-> | [-> | [-> | ->]]]; by eexists.
Qed.

(** The two loops of [utf8_to_array] on any input. *)

Lemma codec_loops_any n s :
  (length s ≤ n)%nat →
  (∃ arr, (length arr ≤ length s)%nat ∧ Forall is_int32 arr ∧
     (∀ size, count_chars n s size = Ok (size + length arr)%nat) ∧
     (∀ res cur, (cur + length arr ≤ length res)%nat →
        fill_chars n s (res, cur)
        = Ok (stored res cur arr, (cur + length arr)%nat))) ∨
  (∀ size, count_chars n s size = Error "incorrect utf-8 input").
Proof.
  revert s. induction n as [|n IH]; intros s Hlen.
  - destruct s; [|simpl in Hlen; lia]. left. exists [].
    split_and!; [done|done|intros; simpl; f_equal; lia|].
    intros res cur _. simpl. rewrite stored_nil. do 2 f_equal. lia.
  - cbn [count_chars fill_chars].
    destruct (Z.eqb_spec (byte_at s 0) 0) as [Hhead|Hhead].
    { left. exists []. split_and!; [simpl; lia|done|intros; simpl; f_equal; lia|].
      intros res cur _. simpl. rewrite stored_nil. do 2 f_equal. lia. }
    pose proof (pg_utf_mblen_range s) as Hl. set (l := pg_utf_mblen s) in *.
    destruct (pg_utf8_islegal s l) eqn:Hlegal; [|by right].
    pose proof (pg_utf8_islegal_fits s l Hl Hhead Hlegal) as Hfits.
    cbn [negb].
    destruct (IH (drop (Z.to_nat l) s)) as [(arr & Harr & H32 & Hcount & Hfill)|Herr];
      [rewrite length_drop; lia| |by right].
    rewrite length_drop in Harr.
    destruct (pack_char_Ok s l Hl) as [iutf Hpack].
    left. exists (int32 iutf :: arr). split_and!.
    + simpl. lia.
    + constructor; [apply int32_range|done].
    + intros size. rewrite Hcount. simpl. f_equal. lia.
    + intros res cur Hres. simpl in Hres. rewrite Hpack.
      cbn [mbind outcome_bind fst snd].
      rewrite store_stored by lia. cbn [mbind outcome_bind].
      replace (S cur) with (cur + length [int32 iutf])%nat by (simpl; lia).
      rewrite Hfill by (rewrite stored_length; simpl; lia).
      rewrite stored_app by (simpl; lia). simpl. do 2 f_equal. lia.
Qed.

(** With the memory after the string read as zero, [utf8_to_array] on any
    bytes either returns an array of [int] values, no longer than the
    input, or raises one of two errors: that of the database encoding,
    exactly when the encoding is not UTF-8, or that of malformed input.
    No store leaves the array, the assertion on the count holds, and the
    error on the character length in the second pass is never raised. *)

Lemma utf8_to_array_outcome encoding input :
  (encoding ≠ PG_UTF8 →
   utf8_to_array encoding input = Error "Database encoding is not UTF-8") ∧
  (encoding = PG_UTF8 →
   (∃ arr, utf8_to_array encoding input = Ok arr ∧
      (length arr ≤ length input)%nat ∧ Forall is_int32 arr) ∨
   utf8_to_array encoding input = Error "incorrect utf-8 input").
Proof.
  unfold utf8_to_array. split.
  - intros Hne. apply Z.eqb_neq in Hne. by rewrite Hne.
  - intros ->. simpl.
    destruct (codec_loops_any (length input) input (le_n _))
      as [(arr & Harr & H32 & Hcount & Hfill)|Herr]; [left|right; by rewrite Herr].
    exists arr. rewrite Hcount. simpl.
    rewrite Hfill by (unfold new_intArrayType; rewrite length_replicate; lia).
    simpl. unfold new_intArrayType. rewrite length_replicate.
    rewrite decide_True by done.
    by rewrite stored_whole by (by rewrite length_replicate).
Qed.

Lemma utf8_to_array_Ok bytes arr :
  byte_string bytes → utf8_to_array PG_UTF8 bytes = Ok arr →
  legal_utf8 bytes = true ∧ concat (nonzero_bytes <$> arr) = bytes.
Proof.
  intros Hbytes Harr.
  pose proof (codec_loops (length bytes) bytes (le_n _) Hbytes) as H.
  destruct (legal_utf8 bytes) eqn:Hlegal.
  - split; [done|].
    destruct (utf8_to_array_legal bytes Hbytes Hlegal) as (arr' & Harr' & Hback).
    congruence.
  - unfold utf8_to_array in Harr. simpl in Harr. by rewrite H in Harr.
Qed.

(** X12. [utf8_to_array] is injective: two byte strings that decode to
    the same array are equal. *)
Theorem utf8_to_array_injective a b arr :
  byte_string a → byte_string b →
  utf8_to_array PG_UTF8 a = Ok arr → utf8_to_array PG_UTF8 b = Ok arr →
  a = b.
Proof.
  intros Ha Hb Harr_a Harr_b.
  apply utf8_to_array_Ok in Harr_a as [_ <-]; [|done].
  by apply utf8_to_array_Ok in Harr_b as [_ <-].
Qed.

Lemma ascii_nonzero_bytes b : 0 < b < 0x80 → nonzero_bytes b = [b].
Proof.
  intros Hb. rewrite <- (int32_id b) at 1 by (unfold is_int32; lia).
  replace b with (0 * 2 ^ 24 + 0 * 2 ^ 16 + 0 * 2 ^ 8 + b) at 1 by lia.
  rewrite nonzero_bytes_packed by lia.
  rewrite !filter_cons, filter_nil. repeat case_decide; try done; lia.
Qed.

Lemma ascii_loops n bytes :
  (length bytes ≤ n)%nat → Forall (λ b, 0 < b < 0x80) bytes →
  (∀ size, count_chars n bytes size = Ok (size + length bytes)%nat) ∧
  (∀ res cur, (cur + length bytes ≤ length res)%nat →
     fill_chars n bytes (res, cur)
     = Ok (stored res cur bytes, (cur + length bytes)%nat)).
Proof.
  revert bytes. induction n as [|n IH]; intros bytes Hlen Hbytes.
  - destruct bytes; [|simpl in Hlen; lia].
    split; [intros; simpl; f_equal; lia|].
    intros res cur _. simpl. rewrite stored_nil. do 2 f_equal. lia.
  - destruct Hbytes as [|b r Hb Hr].
    { split; [intros; simpl; f_equal; lia|].
      intros res cur _. simpl. rewrite stored_nil. do 2 f_equal. lia. }
    simpl in Hlen. destruct (IH r ltac:(lia) Hr) as [Hcount Hfill].
    assert (Hhead : (byte_at (b :: r) 0 =? 0) = false)
      by (apply Z.eqb_neq; unfold byte_at; simpl; lia).
    assert (Hl : pg_utf_mblen (b :: r) = 1).
    { rewrite pg_utf_mblen_byte by lia. by destruct (Z.ltb_spec b 0x80); [|lia]. }
    assert (Hlegal : pg_utf8_islegal (b :: r) 1 = true).
    { unfold pg_utf8_islegal, byte_at. cbn [nth Z.eqb Pos.eqb]. cmp; done. }
    cbn [count_chars fill_chars]. rewrite Hhead, Hl, Hlegal. cbn [negb].
    change (Z.to_nat 1) with 1%nat. change (drop 1 (b :: r)) with (drop 0 r).
    rewrite drop_0. split.
    + intros size. rewrite Hcount. simpl. f_equal. lia.
    + intros res cur Hres. simpl in Hres.
      unfold pack_char. cbn [Z.eqb Pos.eqb byte_at nth mbind outcome_bind fst snd].
      rewrite int32_uint32, int32_id by (unfold is_int32; lia).
      rewrite store_stored by lia. cbn [mbind outcome_bind].
      change (drop 1 (b :: r)) with (drop 0 r). rewrite drop_0.
      replace (S cur) with (cur + length [b])%nat by (simpl; lia).
      rewrite Hfill by (rewrite stored_length; simpl; lia).
      rewrite stored_app by (simpl; lia). simpl. do 2 f_equal. lia.
Qed.

(** X13. On a string of ASCII characters both conversions are the
    identity: the array holds the bytes, and the string the integers. *)
Theorem ascii_identity bytes :
  Forall (λ b, 0 < b < 0x80) bytes →
  utf8_to_array PG_UTF8 bytes = Ok bytes ∧ array_to_utf8 bytes = Ok bytes.
Proof.
  intros Hbytes. split.
  - destruct (ascii_loops (length bytes) bytes (le_n _) Hbytes) as [Hcount Hfill].
    unfold utf8_to_array. simpl. rewrite Hcount. simpl.
    rewrite Hfill by (unfold new_intArrayType; rewrite length_replicate; lia).
    simpl. unfold new_intArrayType. rewrite length_replicate.
    rewrite decide_True by done.
    by rewrite stored_whole by (by rewrite length_replicate).
  - rewrite array_to_utf8_bytes. f_equal.
    induction Hbytes as [|b r Hb _ IH]; [done|].
    rewrite fmap_cons. cbn [concat]. by rewrite IH, ascii_nonzero_bytes.
Qed.

(** The loops do not depend on the bound, once it covers the string. *)

Lemma count_chars_more n m s size :
  (length s ≤ n)%nat → (length s ≤ m)%nat →
  count_chars n s size = count_chars m s size.
Proof.
  revert m s size. induction n as [|n IH]; intros m s size Hn Hm.
  - destruct s; [|simpl in Hn; lia]. by destruct m.
  - destruct (Z.eqb_spec (byte_at s 0) 0) as [Hhead|Hhead].
    { destruct m; simpl; by rewrite (proj2 (Z.eqb_eq _ _) Hhead). }
    apply byte_at_lookup in Hhead as Hlen.
    destruct m as [|m]; [lia|]. cbn [count_chars].
    destruct (_ =? _); [done|]. destruct (negb _); [done|].
    pose proof (pg_utf_mblen_range s).
    apply IH; rewrite length_drop; lia.
Qed.

Lemma fill_chars_more n m s st :
  (length s ≤ n)%nat → (length s ≤ m)%nat →
  fill_chars n s st = fill_chars m s st.
Proof.
  revert m s st. induction n as [|n IH]; intros m s st Hn Hm.
  - destruct s; [|simpl in Hn; lia]. by destruct m.
  - destruct (Z.eqb_spec (byte_at s 0) 0) as [Hhead|Hhead].
    { destruct m; simpl; by rewrite (proj2 (Z.eqb_eq _ _) Hhead). }
    apply byte_at_lookup in Hhead as Hlen.
    destruct m as [|m]; [lia|]. cbn [fill_chars].
    destruct (_ =? _); [done|].
    pose proof (pg_utf_mblen_range s) as Hl.
    destruct (pack_char_Ok s _ Hl) as [iutf ->]. cbn [mbind outcome_bind fst snd].
    destruct (store _ _ _); try done. cbn [mbind outcome_bind].
    apply IH; rewrite length_drop; lia.
Qed.

Lemma utf8_to_array_loops n input arr :
  (length input ≤ n)%nat →
  (∀ size, count_chars n input size = Ok (size + length arr)%nat) →
  (∀ res cur, (cur + length arr ≤ length res)%nat →
     fill_chars n input (res, cur)
     = Ok (stored res cur arr, (cur + length arr)%nat)) →
  utf8_to_array PG_UTF8 input = Ok arr.
Proof.
  intros Hn Hcount Hfill. unfold utf8_to_array. simpl.
  rewrite (count_chars_more _ n) by lia. rewrite Hcount. simpl.
  rewrite (fill_chars_more _ n) by lia.
  rewrite Hfill by (unfold new_intArrayType; rewrite length_replicate; lia).
  simpl. unfold new_intArrayType. rewrite length_replicate.
  rewrite decide_True by done.
  by rewrite stored_whole by (by rewrite length_replicate).
Qed.

(** A character read at the head of [s] is read alike at the head of
    [s ++ t]. *)

Lemma byte_at_app_l s t i :
  (i < length s)%nat → byte_at (s ++ t) i = byte_at s i.
Proof. intros. unfold byte_at. by apply app_nth1. Qed.

Lemma pg_utf_mblen_app s t :
  (0 < length s)%nat → pg_utf_mblen (s ++ t) = pg_utf_mblen s.
Proof. intros. unfold pg_utf_mblen. by rewrite byte_at_app_l. Qed.

Lemma pg_utf8_islegal_app s t l :
  1 ≤ l ≤ 4 → (Z.to_nat l ≤ length s)%nat →
  pg_utf8_islegal (s ++ t) l = pg_utf8_islegal s l.
Proof.
  intros Hl Hlen. assert (Hcases : l = 1 ∨ l = 2 ∨ l = 3 ∨ l = 4) by lia.
  unfold pg_utf8_islegal.
  destruct Hcases as [-> | [-> | [-> | ->]]]; cbn [Z.eqb Pos.eqb];
    rewrite !byte_at_app_l by lia; done.
Qed.

Lemma pack_char_app s t l iutf rest :
  1 ≤ l ≤ 4 → (Z.to_nat l ≤ length s)%nat →
  pack_char s l = Ok (iutf, rest) → pack_char (s ++ t) l = Ok (iutf, rest ++ t).
Proof.
  intros Hl Hlen. assert (Hcases : l = 1 ∨ l = 2 ∨ l = 3 ∨ l = 4) by lia.
  unfold pack_char.
  destruct Hcases as [-> | [-> | [-> | ->]]]; cbn [Z.eqb Pos.eqb];
    rewrite !byte_at_app_l by lia; intros [= <- <-]; do 2 f_equal;
    by rewrite drop_app_le by lia.
Qed.

Lemma codec_loops_app n a b :
  (length (a ++ b) ≤ n)%nat → byte_string a → legal_utf8 a = true →
  ∃ arr,
    (∀ size, count_chars n a size = Ok (size + length arr)%nat) ∧
    (∀ res cur, (cur + length arr ≤ length res)%nat →
       fill_chars n a (res, cur)
       = Ok (stored res cur arr, (cur + length arr)%nat)) ∧
    (∀ size, count_chars n (a ++ b) size
             = count_chars n b (size + length arr)%nat) ∧
    (∀ res cur, (cur + length arr ≤ length res)%nat →
       fill_chars n (a ++ b) (res, cur)
       = fill_chars n b (stored res cur arr, (cur + length arr)%nat)).
Proof.
  revert a. induction n as [|n IH]; intros a Hlen Ha Hlegal.
  - destruct a; [|simpl in Hlen; lia]. exists [].
    split_and!; intros; simpl; rewrite ?stored_nil, ?Nat.add_0_r; done.
  - destruct a as [|b1 r1].
    { exists []. split_and!; intros; simpl app; rewrite ?stored_nil;
        simpl length; rewrite ?Nat.add_0_r; done. }
    pose proof Ha as Hs. apply Forall_cons in Ha as [Hb1 Hr1].
    pose proof (first_unit b1 r1 Hb1 Hr1) as Hunit. cbv zeta in Hunit.
    set (s := b1 :: r1) in *. set (l := pg_utf_mblen s) in *.
    destruct (pg_utf8_islegal s l) eqn:Hislegal; [|congruence].
    destruct Hunit as (Hl & Hle & Hrest). rewrite Hlegal in Hrest.
    assert (Hlen_s : (0 < length s)%nat) by (simpl; lia).
    rewrite length_app in Hlen.
    destruct (IH (drop (Z.to_nat l) s)) as (arr & Hcount & Hfill & Hcount' & Hfill');
      [rewrite length_app, length_drop; lia|by apply Forall_drop|done|].
    destruct (pack_char_Ok s l Hl) as [iutf Hpack].
    assert (Hhead : (byte_at s 0 =? 0) = false)
      by (apply Z.eqb_neq; unfold s, byte_at; simpl; lia).
    assert (Hhead' : (byte_at (s ++ b) 0 =? 0) = false)
      by (by rewrite byte_at_app_l).
    exists (int32 iutf :: arr).
    cbn [count_chars fill_chars].
    rewrite Hhead, Hhead', pg_utf_mblen_app by done. fold l.
    rewrite pg_utf8_islegal_app, Hislegal by done. cbn [negb].
    rewrite (pack_char_app s b l _ _ Hl Hle Hpack), Hpack.
    rewrite drop_app_le by lia.
    split_and!.
    + intros size. rewrite Hcount. simpl. f_equal. lia.
    + intros res cur Hres. simpl in Hres. cbn [mbind outcome_bind fst snd].
      rewrite store_stored by lia. cbn [mbind outcome_bind].
      replace (S cur) with (cur + length [int32 iutf])%nat by (simpl; lia).
      rewrite Hfill by (rewrite stored_length; simpl; lia).
      rewrite stored_app by (simpl; lia). simpl. do 2 f_equal. lia.
    + intros size. rewrite Hcount'. rewrite (count_chars_more n (S n)) by lia.
      cbn [count_chars].
      by replace (S size + length arr)%nat
        with (size + length (int32 iutf :: arr))%nat by (simpl; lia).
    + intros res cur Hres. simpl in Hres. cbn [mbind outcome_bind fst snd].
      rewrite store_stored by lia. cbn [mbind outcome_bind].
      replace (S cur) with (cur + length [int32 iutf])%nat by (simpl; lia).
      rewrite Hfill' by (rewrite stored_length; simpl; lia).
      rewrite stored_app by (simpl; lia).
      rewrite (fill_chars_more n (S n)) by lia. cbn [fill_chars].
      by replace (cur + length [int32 iutf] + length arr)%nat
        with (cur + length (int32 iutf :: arr))%nat by (simpl; lia).
Qed.

(** X14. Decoding distributes over concatenation after a legal string:
    [utf8_to_array] of [a ++ b] is the array of [a] followed by that of
    [b], and fails as [b] does. *)
Theorem utf8_to_array_app a b :
  byte_string a → legal_utf8 a = true →
  utf8_to_array PG_UTF8 (a ++ b)
  = x ← utf8_to_array PG_UTF8 a; y ← utf8_to_array PG_UTF8 b; Ok (x ++ y).
Proof.
  intros Ha Hlegal. set (n := length (a ++ b)).
  destruct (codec_loops_app n a b (le_n _) Ha Hlegal)
    as (arr & Hcount & Hfill & Hcount' & Hfill').
  assert (Hn : (length a ≤ n ∧ length b ≤ n)%nat)
    by (unfold n; rewrite length_app; lia).
  rewrite (utf8_to_array_loops n a arr) by (done || lia).
  cbn [mbind outcome_bind].
  destruct (codec_loops_any n b) as [(arr' & _ & _ & Hcount_b & Hfill_b)|Herr];
    [lia| |].
  - rewrite (utf8_to_array_loops n b arr') by (done || lia).
    cbn [mbind outcome_bind].
    apply (utf8_to_array_loops n); [done| |].
    + intros size. rewrite Hcount', Hcount_b, length_app. f_equal. lia.
    + intros res cur Hres. rewrite length_app in Hres.
      rewrite Hfill' by lia. rewrite Hfill_b by (rewrite stored_length; lia).
      rewrite stored_app, length_app by lia. do 2 f_equal. lia.
  - unfold utf8_to_array. simpl.
    rewrite (count_chars_more _ n (a ++ b)) by done.
    rewrite Hcount', Herr. simpl.
    rewrite (count_chars_more _ n b) by lia. by rewrite Herr.
Qed.




(** ** The reads of [utf8_to_array] *)

Example utf8_to_array_checked_runs :
  utf8_to_array_checked PG_UTF8
    ([0x63; 0xC3; 0xA9; 0xF0; 0x9F; 0x98; 0x80] ++ [0])
  = Ok [0x63; 0xC3A9; 0xF09F9880 - 2 ^ 32] ∧
  utf8_to_array_checked PG_UTF8 ([0xC3] ++ [0])
  = Error "incorrect utf-8 input" ∧
  utf8_to_array_checked PG_UTF8 ([0xF0; 0x9F; 0x98] ++ [0])
  = Error "incorrect utf-8 input" ∧
  utf8_to_array_checked PG_UTF8 ([0xF0; 0x9F] ++ [0]) = Fault ∧
  utf8_to_array_checked PG_UTF8 ([0x61; 0xE0] ++ [0]) = Fault.
Proof. by split_and!. Qed.

Lemma load_terminated s i :
  load (s ++ [0]) i
  = if decide (i ≤ length s)%nat then Ok (byte_at s i) else Fault.
Proof.
  unfold load, byte_at. destruct (decide _) as [Hi|Hi].
  - destruct (decide (i < length s)%nat) as [Hlt|Hge].
    + rewrite lookup_app_l by done.
      destruct (lookup_lt_is_Some_2 s i Hlt) as [v Hv]. rewrite Hv.
      by rewrite (nth_lookup_Some _ _ 0 _ Hv).
    + assert (i = length s) as -> by lia.
      rewrite lookup_app_r by lia. rewrite Nat.sub_diag. simpl.
      by rewrite nth_overflow by lia.
  - rewrite lookup_ge_None_2; [done|]. rewrite length_app. simpl. lia.
Qed.

Lemma pg_utf_mblen_terminated s :
  pg_utf_mblen_checked (s ++ [0]) = Ok (pg_utf_mblen s).
Proof.
  unfold pg_utf_mblen_checked, pg_utf_mblen. rewrite load_terminated.
  rewrite decide_True by lia. done.
Qed.

Lemma pg_utf8_islegal_terminated s l :
  1 ≤ l ≤ 4 →
  pg_utf8_islegal_checked (s ++ [0]) l
  = if decide (Z.to_nat l ≤ S (length s))%nat
    then Ok (pg_utf8_islegal s l) else Fault.
Proof.
  intros Hl.
  assert (l = 1 ∨ l = 2 ∨ l = 3 ∨ l = 4) as [-> | [-> | [-> | ->]]] by lia;
    unfold pg_utf8_islegal_checked, pg_utf8_islegal; cbn [Z.eqb Pos.eqb];
    rewrite !load_terminated;
    change (Z.to_nat 1) with 1%nat; change (Z.to_nat 2) with 2%nat;
    change (Z.to_nat 3) with 3%nat; change (Z.to_nat 4) with 4%nat;
    repeat (destruct (decide _); try lia); cbn [mbind outcome_bind]; try done;
    repeat (case_match; try done).
Qed.

Lemma pack_char_terminated s l :
  1 ≤ l ≤ 4 → (Z.to_nat l ≤ S (length s))%nat →
  pack_char_checked (s ++ [0]) l
  = ch ← pack_char s l; Ok (ch.1, drop (Z.to_nat l) (s ++ [0])).
Proof.
  intros Hl.
  assert (l = 1 ∨ l = 2 ∨ l = 3 ∨ l = 4) as [-> | [-> | [-> | ->]]] by lia;
    unfold pack_char_checked, pack_char; cbn [Z.eqb Pos.eqb];
    rewrite !load_terminated;
    change (Z.to_nat 1) with 1%nat; change (Z.to_nat 2) with 2%nat;
    change (Z.to_nat 3) with 3%nat; change (Z.to_nat 4) with 4%nat;
    intros; repeat (rewrite decide_True by lia); done.
Qed.

Lemma past_terminator_step s l :
  byte_string s → s ≠ [] → l = pg_utf_mblen s →
  pg_utf8_islegal s l = true →
  past_terminator (drop (Z.to_nat l) s) → past_terminator s.
Proof.
  intros Hs Hne -> Hlegal (a & t & Hat & Ha & Ht & Hover).
  destruct s as [|b r]; [done|]. inversion Hs as [|? ? Hb Hr]; subst.
  pose proof (first_unit b r Hb Hr) as Hunit. cbv zeta in Hunit.
  rewrite Hlegal in Hunit. destruct Hunit as (Hl & Hfit & _).
  set (l := pg_utf_mblen (b :: r)) in *.
  exists (take (Z.to_nat l) (b :: r) ++ a), t. split_and!; [|  |done|done].
  - rewrite <- (assoc_L (++)), <- Hat. by rewrite take_drop.
  - assert (Hlen : length (take (Z.to_nat l) (b :: r)) = Z.to_nat l)
      by (rewrite length_take; lia).
    assert (∃ r', take (Z.to_nat l) (b :: r) = b :: r') as [r' Hr'].
    { destruct (Z.to_nat l) eqn:E; [lia|]. simpl. eauto. }
    assert (Hbs : byte_string (take (Z.to_nat l) (b :: r) ++ a)).
    { apply Forall_app. split; [by apply Forall_take|].
      assert (Hd : byte_string (drop (Z.to_nat l) (b :: r))) by by apply Forall_drop.
      rewrite Hat in Hd. by apply Forall_app in Hd as [? ?]. }
    rewrite Hr' in Hbs |- *.
    change ((b :: r') ++ a) with (b :: (r' ++ a)) in Hbs |- *.
    inversion Hbs as [|? ? _ Hbs']; subst.
    pose proof (first_unit b (r' ++ a) Hb Hbs') as Hunit. cbv zeta in Hunit.
    assert (Hm : pg_utf_mblen (b :: r' ++ a) = l) by done.
    rewrite Hm in Hunit.
    assert (Hleg : pg_utf8_islegal (b :: r' ++ a) l = true).
    { change (b :: r' ++ a) with ((b :: r') ++ a). rewrite <- Hr'.
      rewrite pg_utf8_islegal_app by lia.
      rewrite <- Hlegal. rewrite <- (take_drop (Z.to_nat l) (b :: r)) at 2.
      by rewrite pg_utf8_islegal_app by lia. }
    rewrite Hleg in Hunit. destruct Hunit as (_ & _ & ->).
    change (b :: r' ++ a) with ((b :: r') ++ a). rewrite <- Hr'.
    rewrite drop_app_length'; done.
Qed.

Lemma byte_string_head s :
  byte_string s → s ≠ [] → byte_at s 0 ≠ 0 ∧ (0 < length s)%nat.
Proof.
  intros Hs Hne. destruct s as [|b r]; [done|].
  inversion Hs; subst. unfold byte_at. simpl. lia.
Qed.

Lemma checked_first_unit s :
  byte_string s → s ≠ [] →
  let l := pg_utf_mblen s in
  if pg_utf8_islegal s l
  then 1 ≤ l ≤ 4 ∧ (Z.to_nat l ≤ length s)%nat ∧
       legal_utf8 s = legal_utf8 (drop (Z.to_nat l) s)
  else legal_utf8 s = false.
Proof.
  intros Hs Hne. destruct s as [|b r]; [done|].
  inversion Hs; subst. by apply first_unit.
Qed.

Lemma count_chars_checked_step n s size :
  byte_string s → s ≠ [] →
  count_chars_checked (S n) (s ++ [0]) size
  = let l := pg_utf_mblen s in
    if decide (Z.to_nat l ≤ S (length s))%nat then
      if negb (pg_utf8_islegal s l) then Error "incorrect utf-8 input"
      else count_chars_checked n (drop (Z.to_nat l) (s ++ [0])) (S size)
    else Fault.
Proof.
  intros Hs Hne. destruct (byte_string_head s Hs Hne) as [Hb _].
  cbn [count_chars_checked]. rewrite load_terminated.
  rewrite decide_True by lia. cbn [mbind outcome_bind].
  apply Z.eqb_neq in Hb. rewrite Hb.
  rewrite pg_utf_mblen_terminated. cbn [mbind outcome_bind].
  rewrite pg_utf8_islegal_terminated by apply pg_utf_mblen_range.
  cbv zeta. by destruct (decide _).
Qed.

Lemma count_chars_terminated n s size :
  (length s ≤ n)%nat → byte_string s →
  (count_chars_checked n (s ++ [0]) size = Fault ∧ past_terminator s) ∨
  count_chars_checked n (s ++ [0]) size = count_chars n s size.
Proof.
  revert s size. induction n as [|n IH]; intros s size Hn Hs.
  - destruct s; [|simpl in Hn; lia]. by right.
  - destruct (decide (s = [])) as [->|Hne]; [by right|].
    destruct (byte_string_head s Hs Hne) as [Hb Hlen].
    rewrite count_chars_checked_step by done. cbv zeta.
    pose proof (checked_first_unit s Hs Hne) as Hunit. cbv zeta in Hunit.
    cbn [count_chars]. apply Z.eqb_neq in Hb. rewrite Hb.
    destruct (decide _) as [Hin|Hout].
    + destruct (pg_utf8_islegal s (pg_utf_mblen s)) eqn:Hlegal; [|by right].
      destruct Hunit as (Hl & Hfit & _). simpl negb. cbv iota.
      rewrite drop_app_le by done.
      destruct (IH (drop (Z.to_nat (pg_utf_mblen s)) s) (S size)) as [[HF Ho]|HE].
      * rewrite length_drop. lia.
      * by apply Forall_drop.
      * left. split; [done|]. by apply (past_terminator_step s (pg_utf_mblen s)).
      * by right.
    + left. split; [done|]. exists [], s. split_and!; try done. lia.
Qed.

Lemma count_chars_past_terminator n s size :
  (length s ≤ n)%nat → byte_string s → past_terminator s →
  count_chars_checked n (s ++ [0]) size = Fault.
Proof.
  revert s size. induction n as [|n IH]; intros s size Hn Hs (a & t & -> & Ha & Ht & Hover).
  - destruct a, t; simpl in Hn; try lia; done.
  - assert (Hne : a ++ t ≠ []) by (by destruct a, t).
    rewrite count_chars_checked_step by done. cbv zeta.
    apply Forall_app in Hs as [Hsa Hst].
    destruct (decide (a = [])) as [->|Hane].
    + rewrite app_nil_l. rewrite decide_False by lia. done.
    + destruct (byte_string_head a Hsa Hane) as [_ Hlen].
      pose proof (checked_first_unit a Hsa Hane) as Hunit. cbv zeta in Hunit.
      rewrite pg_utf_mblen_app by done.
      destruct (pg_utf8_islegal a (pg_utf_mblen a)) eqn:Hlegal; [|congruence].
      destruct Hunit as (Hl & Hfit & Hrest).
      rewrite pg_utf8_islegal_app, Hlegal by done.
      rewrite decide_True by (rewrite length_app; lia). simpl negb. cbv iota.
      rewrite <- (assoc_L (++)), drop_app_le by done.
      rewrite (assoc_L (++)). apply IH.
      * rewrite length_app, length_drop. rewrite length_app in Hn. lia.
      * apply Forall_app. split; [by apply Forall_drop|done].
      * exists (drop (Z.to_nat (pg_utf_mblen a)) a), t.
        split_and!; try done. congruence.
Qed.

Lemma fill_chars_terminated n s st :
  (length s ≤ n)%nat → byte_string s → legal_utf8 s = true →
  fill_chars_checked n (s ++ [0]) st = fill_chars n s st.
Proof.
  revert s st. induction n as [|n IH]; intros s st Hn Hs Hlegal.
  - destruct s; [|simpl in Hn; lia]. done.
  - destruct (decide (s = [])) as [->|Hne]; [done|].
    destruct (byte_string_head s Hs Hne) as [Hb Hlen].
    pose proof (checked_first_unit s Hs Hne) as Hunit. cbv zeta in Hunit.
    destruct (pg_utf8_islegal s (pg_utf_mblen s)); [|congruence].
    destruct Hunit as (Hl & Hfit & Hrest).
    cbn [fill_chars_checked fill_chars]. rewrite load_terminated.
    rewrite decide_True by lia. cbn [mbind outcome_bind].
    apply Z.eqb_neq in Hb. rewrite Hb.
    rewrite pg_utf_mblen_terminated. cbn [mbind outcome_bind].
    rewrite pack_char_terminated by (done || lia).
    destruct (pack_char_Ok s (pg_utf_mblen s) Hl) as [iutf ->].
    cbn [mbind outcome_bind fst snd].
    destruct (store _ _ _) as [res| | |]; try done.
    rewrite drop_app_le by done. apply IH.
    + rewrite length_drop. lia.
    + by apply Forall_drop.
    + congruence.
Qed.

Lemma count_chars_legal_terminated n s size :
  (length s ≤ n)%nat → byte_string s → legal_utf8 s = true →
  count_chars_checked n (s ++ [0]) size = count_chars n s size.
Proof.
  revert s size. induction n as [|n IH]; intros s size Hn Hs Hlegal.
  - destruct s; [|simpl in Hn; lia]. done.
  - destruct (decide (s = [])) as [->|Hne]; [done|].
    destruct (byte_string_head s Hs Hne) as [Hb Hlen].
    rewrite count_chars_checked_step by done. cbv zeta.
    pose proof (checked_first_unit s Hs Hne) as Hunit. cbv zeta in Hunit.
    cbn [count_chars]. apply Z.eqb_neq in Hb. rewrite Hb.
    destruct (pg_utf8_islegal s (pg_utf_mblen s)); [|congruence].
    destruct Hunit as (Hl & Hfit & Hrest).
    rewrite decide_True by lia. simpl negb. cbv iota.
    rewrite drop_app_le by done. apply IH.
    + rewrite length_drop. lia.
    + by apply Forall_drop.
    + congruence.
Qed.

(** X11. The reads of [utf8_to_array], checked against the string and its
    terminator. The length of a unit is not compared with what is left of
    the string, so that a read leaves the buffer exactly when the string
    ends in a unit cut short by two bytes or more; on a legal string none
    does. In every other case the function does what it does when the
    memory after the string reads as zero: it returns the array, no
    longer than the string, or raises the error of malformed input. The
    error of the encoding comes before any read. *)

Theorem utf8_to_array_reads encoding p :
  byte_string p →
  (encoding ≠ PG_UTF8 →
   utf8_to_array_checked encoding (p ++ [0])
   = Error "Database encoding is not UTF-8") ∧
  (utf8_to_array_checked PG_UTF8 (p ++ [0]) = Fault ↔ past_terminator p) ∧
  (legal_utf8 p = true → utf8_to_array_checked PG_UTF8 (p ++ [0]) ≠ Fault) ∧
  (utf8_to_array_checked PG_UTF8 (p ++ [0]) ≠ Fault →
   utf8_to_array_checked PG_UTF8 (p ++ [0]) = utf8_to_array PG_UTF8 p ∧
   ((∃ arr, utf8_to_array PG_UTF8 p = Ok arr ∧
       (length arr ≤ length p)%nat ∧ Forall is_int32 arr) ∨
    utf8_to_array PG_UTF8 p = Error "incorrect utf-8 input")).
Proof.
  intros Hp.
  assert (Hlen : length (p ++ [0]) = S (length p))
    by (rewrite length_app; simpl; lia).
  assert (Hvalue :
    (∃ arr, utf8_to_array PG_UTF8 p = Ok arr ∧
       (length arr ≤ length p)%nat ∧ Forall is_int32 arr) ∨
    utf8_to_array PG_UTF8 p = Error "incorrect utf-8 input")
    by (by apply (utf8_to_array_outcome PG_UTF8 p)).
  assert (Hrun :
    (utf8_to_array_checked PG_UTF8 (p ++ [0]) = Fault ∧ past_terminator p) ∨
    (¬ past_terminator p ∧
     utf8_to_array_checked PG_UTF8 (p ++ [0]) = utf8_to_array PG_UTF8 p)).
  { unfold utf8_to_array_checked, utf8_to_array. simpl negb. cbv iota.
    rewrite Hlen.
    destruct (count_chars_terminated (S (length p)) p 0%nat) as [[HF Ho]|HE];
      [lia|done| |].
    { left. by rewrite HF. }
    right. split.
    { intros Ho. rewrite (count_chars_past_terminator _ p 0%nat) in HE by (lia || done).
      rewrite (count_chars_more _ (length p)) in HE by lia.
      destruct (codec_loops_any (length p) p (le_n _))
        as [(arr & _ & _ & Hc & _)|Hc]; rewrite Hc in HE; done. }
    rewrite HE. rewrite (count_chars_more _ (length p)) by lia.
    pose proof (codec_loops (length p) p (le_n _) Hp) as Hloops.
    destruct (legal_utf8 p) eqn:Hlegal.
    - destruct Hloops as (arr & Hc & _). rewrite Hc. cbn [mbind outcome_bind].
      rewrite fill_chars_terminated by (lia || done).
      by rewrite (fill_chars_more _ (length p)) by lia.
    - by rewrite Hloops. }
  split_and!.
  - intros He. unfold utf8_to_array_checked.
    apply Z.eqb_neq in He. by rewrite He.
  - split.
    + intros HF. destruct Hrun as [[_ Ho]|[_ HE]]; [done|].
      rewrite HE in HF. destruct Hvalue as [(arr & H & _)|H]; congruence.
    + intros Ho. destruct Hrun as [[HF _]|[Hno _]]; done.
  - intros Hlegal HF.
    pose proof (codec_loops (length p) p (le_n _) Hp) as Hloops.
    rewrite Hlegal in Hloops. destruct Hloops as (arr & Hc & _).
    destruct Hrun as [[_ Ho]|[_ HE]].
    + pose proof (count_chars_past_terminator (length p) p 0%nat (le_n _) Hp Ho) as H.
      rewrite count_chars_legal_terminated, Hc in H; done.
    + rewrite HE in HF. destruct Hvalue as [(arr' & H & _)|H]; congruence.
  - intros HF. destruct Hrun as [[HF' _]|[_ HE]]; [done|]. by split.
Qed.


(** ** Runs on the sample table *)

Lemma sample_table_typed : table_typed sample_table.
Proof. repeat constructor; by vm_compute. Qed.

Lemma sample_table_sorted : table_sorted sample_table.
Proof. repeat constructor; by vm_compute. Qed.

Lemma pg_sasl_prepare_runs_ordered_witness :
  Forall (λ x, has_entry sample_table (uint32 x)) [0x61; 0xC3A9; 0xCCA3] ∧
  pg_sasl_prepare sample_table 3 [0x61; 0xC3A9; 0xCCA3]
  = Ok [0x61; 0x65; 0xCCA3; 0xCC81] ∧
  StronglySorted Z.le (combining_class sample_table <$> [0xCCA3; 0xCC81]).
Proof.
  assert (H : Forall (λ x, has_entry sample_table (uint32 x))
                [0x61; 0xC3A9; 0xCCA3]).
  { repeat constructor; eexists; vm_compute; reflexivity. }
  split; [exact H|]. split; [vm_compute; reflexivity|].
  apply (proj1 (pg_sasl_prepare_runs_ordered sample_table 3 _ H)
           [0x61; 0x65; 0xCCA3; 0xCC81])
    with (pre := [0x61; 0x65]) (post := []).
  - vm_compute. reflexivity.
  - reflexivity.
  - repeat constructor; vm_compute; discriminate.
Defined.

Lemma utf8_round_trip_witness :
  byte_string [0x63; 0x61; 0x66; 0xC3; 0xA9] ∧
  legal_utf8 [0x63; 0x61; 0x66; 0xC3; 0xA9] = true ∧
  ∃ arr, utf8_to_array PG_UTF8 [0x63; 0x61; 0x66; 0xC3; 0xA9] = Ok arr ∧
    array_to_utf8 arr = Ok [0x63; 0x61; 0x66; 0xC3; 0xA9] ∧
    array_to_utf8 arr ≫= utf8_to_array PG_UTF8 = Ok arr.
Proof.
  assert (H : byte_string [0x63; 0x61; 0x66; 0xC3; 0xA9])
    by (repeat constructor; lia).
  split; [exact H|]. split; [reflexivity|].
  apply (utf8_round_trip [0x63; 0x61; 0x66; 0xC3; 0xA9] H). reflexivity.
Defined.

Lemma decompose_code_fills_counted_witness :
  well_formed sample_table 3 0xE1BAA5 ∧
  Forall (well_formed sample_table 3) (uint32 <$> [0xE1BAA5; 0xF09D859E - 2 ^ 32]) ∧
  get_decomposed_size sample_table 3 0xE1BAA5 = Ok 3%nat ∧
  decompose_code sample_table 3 0xE1BAA5 ([7; 7; 7; 7; 7], 1%nat)
  = Ok ([7; 0x61; 0xCC82; 0xCC81; 7], 4%nat) ∧
  ∃ size out,
    size_pass sample_table 3 [0xE1BAA5; 0xF09D859E - 2 ^ 32] 0 = Ok size ∧
    length out = size ∧
    ∀ res, length res = size →
      fill_pass sample_table 3 [0xE1BAA5; 0xF09D859E - 2 ^ 32] (res, 0%nat)
      = Ok (out, size).
Proof.
  assert (H1 : well_formed sample_table 3 0xE1BAA5).
  { apply (decompose_well_formed sample_table 3 _ [0x61; 0xCC82; 0xCC81]).
    vm_compute. reflexivity. }
  assert (H2 : Forall (well_formed sample_table 3)
                 (uint32 <$> [0xE1BAA5; 0xF09D859E - 2 ^ 32])).
  { apply (size_pass_well_formed sample_table 3 _ 0%nat 5%nat).
    vm_compute. reflexivity. }
  split; [exact H1|]. split; [exact H2|].
  split; [vm_compute; reflexivity|]. split; [vm_compute; reflexivity|].
  exact (proj2 (decompose_code_fills_counted sample_table 3 0xE1BAA5
                  [0xE1BAA5; 0xF09D859E - 2 ^ 32] H1 H2)).
Defined.

Lemma pg_sasl_prepare_idempotent_witness :
  table_typed sample_table ∧
  Forall (well_formed sample_table 3) (uint32 <$> [0xE1BAA5; 0xCCA3; 0x65]) ∧
  ∃ y, pg_sasl_prepare sample_table 3 [0xE1BAA5; 0xCCA3; 0x65] = Ok y ∧
    pg_sasl_prepare sample_table 3 y = Ok y.
Proof.
  assert (H : Forall (well_formed sample_table 3)
                (uint32 <$> [0xE1BAA5; 0xCCA3; 0x65])).
  { apply (size_pass_well_formed sample_table 3 _ 0%nat 5%nat).
    vm_compute. reflexivity. }
  split; [exact sample_table_typed|]. split; [exact H|].
  exact (pg_sasl_prepare_idempotent sample_table 3 [0xE1BAA5; 0xCCA3; 0x65]
           sample_table_typed H).
Defined.

Example pg_sasl_prepare_twice :
  pg_sasl_prepare sample_table 3 [0xE1BAA5; 0xCCA3; 0x65]
  = Ok [0x61; 0xCCA3; 0xCC82; 0xCC81; 0x65] ∧
  pg_sasl_prepare sample_table 3 [0x61; 0xCCA3; 0xCC82; 0xCC81; 0x65]
  = Ok [0x61; 0xCCA3; 0xCC82; 0xCC81; 0x65].
Proof. split; vm_compute; reflexivity. Qed.

Example ordering_loop_backtracks :
  canonical_ordering sample_table [0xCC81; 0xCC82; 0xCCA3; 0xCCA3]
  = Ok [0xCCA3; 0xCCA3; 0xCC81; 0xCC82] ∧
  ordering_fuel sample_table [0xCC81; 0xCC82; 0xCCA3; 0xCCA3] = 12%nat.
Proof. split; vm_compute; reflexivity. Qed.

(** The inversions that a swap removes are counted over all pairs of
    positions: the count over neighbours alone can stay as it is. *)

Example swap_keeps_adjacent_inversions :
  ordering_body sample_table [0xCC81; 0xF09D85A5 - 2 ^ 32; 0xCCA3] 1
  = Ok ([0xF09D85A5 - 2 ^ 32; 0xCC81; 0xCCA3], 1%nat) ∧
  combining_class sample_table <$> [0xCC81; 0xF09D85A5 - 2 ^ 32; 0xCCA3]
  = [230; 216; 220] ∧
  adjacent_inversions [230; 216; 220] = 1%nat ∧
  adjacent_inversions [216; 230; 220] = 1%nat ∧
  inversions [230; 216; 220] = 2%nat ∧
  inversions [216; 230; 220] = 1%nat.
Proof. split_and!; vm_compute; reflexivity. Qed.

Lemma lookup_miss_faults_witness :
  get_code_entry sample_table (uint32 0x62) = Fault ∧
  pg_sasl_prepare sample_table 3 ([0x61] ++ 0x62 :: [0x65]) = Fault.
Proof.
  assert (H : get_code_entry sample_table (uint32 0x62) = Fault)
    by (vm_compute; reflexivity).
  split; [exact H|].
  apply (lookup_miss_faults sample_table 3 [0x61] 0x62 [0x65] H); [lia|].
  apply (size_pass_well_formed sample_table 3 _ 0%nat 1%nat).
  vm_compute. reflexivity.
Defined.

(** C6. A lookup miss is to be reported as an outcome of the call, not
    to end in a fault. The code does not do so: the integer 0x62 has no
    entry in the sample table, and on the array of 0x61 and 0x62 the call
    fails the assertion of [get_code_entry], where [utf8_to_array] raises
    an error on input it cannot take. No error is raised and no array is
    returned. *)

Lemma lookup_miss_not_reported :
  0x62 ∈ [0x61; 0x62] ∧
  get_code_entry sample_table (uint32 0x62) = Fault ∧
  pg_sasl_prepare sample_table 3 [0x61; 0x62] = Fault ∧
  ¬ ∃ msg, pg_sasl_prepare sample_table 3 [0x61; 0x62] = Error msg.
Proof.
  split; [by repeat constructor|]. split; [vm_compute; reflexivity|].
  split; [vm_compute; reflexivity|]. intros [msg H]. vm_compute in H. discriminate.
Qed.

Example starters_stay :
  canonical_ordering sample_table [0xCC81; 0xCCA3; 0x65; 0xCC82; 0xCCA3; 0x61]
  = Ok [0xCCA3; 0xCC81; 0x65; 0xCCA3; 0xCC82; 0x61].
Proof. vm_compute. reflexivity. Qed.

Lemma decompose_code_terminal_witness :
  table_typed sample_table ∧
  well_formed sample_table 3 0xF09D859E ∧
  ∃ n, get_decomposed_size sample_table 3 0xF09D859E = Ok n ∧
    ((1 + n ≤ length [7; 7; 7; 7; 7])%nat →
     ∃ res', decompose_code sample_table 3 0xF09D859E ([7; 7; 7; 7; 7], 1%nat)
             = Ok (res', (1 + n)%nat) ∧
       ∀ i z, (1 ≤ i < 1 + n)%nat → res' !! i = Some z →
         terminal sample_table (uint32 z)).
Proof.
  assert (H : well_formed sample_table 3 0xF09D859E).
  { apply (decompose_well_formed sample_table 3 _ [0xF09D8597; 0xF09D85A5]).
    vm_compute. reflexivity. }
  split; [exact sample_table_typed|]. split; [exact H|].
  exact (decompose_code_terminal sample_table 3 0xF09D859E [7; 7; 7; 7; 7] 1
           sample_table_typed H).
Defined.


(** ** Runs of the further properties *)

Lemma get_code_entry_exact_witness :
  table_sorted sample_table ∧
  (∀ entry, entry ∈ sample_table → utf entry ≠ 0x62) ∧
  {| utf := 0xCC81; class := 230; codes := [0; 0; 0; 0] |} ∈ sample_table.
Proof.
  split; [exact sample_table_sorted|]. split.
  - apply (proj1 (proj2 (get_code_entry_exact sample_table 0x62
                           sample_table_sorted))).
    vm_compute. reflexivity.
  - apply (proj1 (proj1 (get_code_entry_exact sample_table 0xCC81
                           sample_table_sorted) _)).
    vm_compute. reflexivity.
Defined.

Lemma pg_sasl_prepare_returns_iff_witness :
  table_typed sample_table ∧
  ¬ Forall (well_formed sample_table 3) (uint32 <$> [0x61; 0x62]).
Proof.
  split; [exact sample_table_typed|]. intros H.
  apply (proj2 (proj1 (pg_sasl_prepare_returns_iff sample_table 3 [0x61; 0x62]
                         sample_table_typed))) in H.
  destruct H as [out H]. vm_compute in H. discriminate.
Defined.

Lemma pg_sasl_prepare_permutes_witness :
  pg_sasl_prepare sample_table 3 [0xC3A9; 0xCCA3] = Ok [0x65; 0xCCA3; 0xCC81] ∧
  ∃ l, decompose_input sample_table 3 [0xC3A9; 0xCCA3] = Ok l ∧
    int32 <$> l ≡ₚ [0x65; 0xCCA3; 0xCC81].
Proof.
  assert (H : pg_sasl_prepare sample_table 3 [0xC3A9; 0xCCA3]
              = Ok [0x65; 0xCCA3; 0xCC81]) by (vm_compute; reflexivity).
  split; [exact H|].
  exact (pg_sasl_prepare_permutes sample_table 3 _ _ H).
Defined.

Lemma canonical_ordering_stable_witness :
  Forall is_int32 [0xCC81; 0xCC82; 0xCCA3] ∧
  canonical_ordering sample_table [0xCC81; 0xCC82; 0xCCA3]
  = Ok [0xCCA3; 0xCC81; 0xCC82] ∧
  filter (λ z, combining_class sample_table z = 230) [0xCCA3; 0xCC81; 0xCC82]
  = filter (λ z, combining_class sample_table z = 230) [0xCC81; 0xCC82; 0xCCA3].
Proof.
  assert (H32 : Forall is_int32 [0xCC81; 0xCC82; 0xCCA3])
    by (repeat constructor; by vm_compute).
  assert (H : canonical_ordering sample_table [0xCC81; 0xCC82; 0xCCA3]
              = Ok [0xCCA3; 0xCC81; 0xCC82]) by (vm_compute; reflexivity).
  split; [exact H32|]. split; [exact H|].
  exact (canonical_ordering_stable sample_table _ _ 230 H32 H).
Defined.

Lemma pg_sasl_prepare_fixed_point_witness :
  table_typed sample_table ∧ Forall is_int32 [0x61; 0xCCA3; 0xCC81; 0x65] ∧
  pg_sasl_prepare sample_table 1 [0x61; 0xCCA3; 0xCC81; 0x65]
  = Ok [0x61; 0xCCA3; 0xCC81; 0x65] ∧
  ordered sample_table [0x61; 0xCCA3; 0xCC81; 0x65].
Proof.
  assert (H32 : Forall is_int32 [0x61; 0xCCA3; 0xCC81; 0x65])
    by (repeat constructor; by vm_compute).
  assert (H : pg_sasl_prepare sample_table 1 [0x61; 0xCCA3; 0xCC81; 0x65]
              = Ok [0x61; 0xCCA3; 0xCC81; 0x65]) by (vm_compute; reflexivity).
  split; [exact sample_table_typed|]. split; [exact H32|]. split; [exact H|].
  exact (proj2 (proj1 (pg_sasl_prepare_fixed_point sample_table 0 _
                         sample_table_typed H32) H)).
Defined.

Lemma pg_sasl_prepare_length_witness :
  let input := [0xE1BAA5; 0x65] in
  let out := [0x61; 0xCC82; 0xCC81; 0x65] in
  pg_sasl_prepare sample_table 3 input = Ok out ∧
  size_pass sample_table 3 input 0 = Ok (length out) ∧
  (length input ≤ length out)%nat.
Proof.
  intros input out.
  assert (H : pg_sasl_prepare sample_table 3 input = Ok out)
    by (vm_compute; reflexivity).
  split; [exact H|].
  exact (pg_sasl_prepare_length sample_table 3 input out H).
Defined.

Example utf8_conv_table_sample :
  utf8_conv_table
    [ {| utf := 0x61; class := 0; codes := [0; 0; 0; 0] |};
      {| utf := 0xC3A2; class := 0; codes := [0x61; 0xCC82; 0; 0] |};
      {| utf := 0xF09D85A5; class := 216; codes := [0; 0; 0; 0] |} ]
    (Some {| is_ReturnSetInfo := true; allowedModes := 0x03 |})
    TYPEFUNC_COMPOSITE
  = Ok [ {| tuple_utf := 0x61; tuple_class := 0; tuple_decomp := None |};
         {| tuple_utf := 0xC3A2; tuple_class := 0;
            tuple_decomp := Some [0x61; 0xCC82] |};
         {| tuple_utf := 0xF09D85A5 - 2 ^ 32; tuple_class := 216;
            tuple_decomp := None |} ] ∧
  utf8_conv_table sample_table
    (Some {| is_ReturnSetInfo := true; allowedModes := 0x01 |})
    TYPEFUNC_COMPOSITE
  = Error "materialize mode required, but it is not allowed in this context" ∧
  utf8_conv_table sample_table None TYPEFUNC_COMPOSITE
  = Error "set-valued function called in context that cannot accept a set".
Proof. split_and!; vm_compute; reflexivity. Qed.

Lemma utf8_conv_table_lookup_witness :
  table_sorted sample_table ∧ table_typed sample_table ∧
  utf8_conv_table sample_table
    (Some {| is_ReturnSetInfo := true; allowedModes := 0x02 |})
    TYPEFUNC_COMPOSITE
  = Ok (entry_tuple <$> sample_table) ∧
  (is_int32 0x62 →
   has_entry sample_table (uint32 0x62) ↔
   ∃ t, t ∈ entry_tuple <$> sample_table ∧ tuple_utf t = 0x62).
Proof.
  assert (H : utf8_conv_table sample_table
                (Some {| is_ReturnSetInfo := true; allowedModes := 0x02 |})
                TYPEFUNC_COMPOSITE
              = Ok (entry_tuple <$> sample_table))
    by (vm_compute; reflexivity).
  split; [exact sample_table_sorted|]. split; [exact sample_table_typed|].
  split; [exact H|].
  exact (proj1 (utf8_conv_table_lookup sample_table _ _ _ sample_table_sorted
                  sample_table_typed H) 0x62).
Defined.

Lemma utf8_to_array_injective_witness :
  byte_string [0xC3; 0xA9] ∧
  utf8_to_array PG_UTF8 [0xC3; 0xA9] = Ok [0xC3A9] ∧
  [0xC3; 0xA9] = [0xC3; 0xA9].
Proof.
  assert (H : byte_string [0xC3; 0xA9]) by (repeat constructor; lia).
  assert (Harr : utf8_to_array PG_UTF8 [0xC3; 0xA9] = Ok [0xC3A9])
    by reflexivity.
  split; [exact H|]. split; [exact Harr|].
  exact (utf8_to_array_injective _ _ _ H H Harr Harr).
Defined.

Lemma ascii_identity_witness :
  Forall (λ b, 0 < b < 0x80) [0x61; 0x62; 0x63] ∧
  utf8_to_array PG_UTF8 [0x61; 0x62; 0x63] = Ok [0x61; 0x62; 0x63] ∧
  array_to_utf8 [0x61; 0x62; 0x63] = Ok [0x61; 0x62; 0x63].
Proof.
  assert (H : Forall (λ b, 0 < b < 0x80) [0x61; 0x62; 0x63])
    by (repeat constructor; lia).
  split; [exact H|]. exact (ascii_identity _ H).
Defined.

Lemma utf8_to_array_app_witness :
  byte_string [0xC3; 0xA9] ∧ legal_utf8 [0xC3; 0xA9] = true ∧
  utf8_to_array PG_UTF8 ([0xC3; 0xA9] ++ [0x61; 0x80])
  = x ← utf8_to_array PG_UTF8 [0xC3; 0xA9];
    y ← utf8_to_array PG_UTF8 [0x61; 0x80]; Ok (x ++ y).
Proof.
  assert (H : byte_string [0xC3; 0xA9]) by (repeat constructor; lia).
  split; [exact H|]. split; [reflexivity|].
  exact (utf8_to_array_app [0xC3; 0xA9] [0x61; 0x80] H eq_refl).
Defined.


Lemma utf8_to_array_reads_witness :
  byte_string [0x61; 0xF0] ∧ past_terminator [0x61; 0xF0] ∧
  utf8_to_array_checked PG_UTF8 ([0x61; 0xF0] ++ [0]) = Fault.
Proof.
  assert (H : byte_string [0x61; 0xF0]) by (repeat constructor; lia).
  assert (Ho : past_terminator [0x61; 0xF0]).
  { exists [0x61], [0xF0]. split; [reflexivity|]. split; [reflexivity|].
    split; [discriminate|]. vm_compute. discriminate. }
  split; [exact H|]. split; [exact Ho|].
  exact (proj2 (proj1 (proj2 (utf8_to_array_reads PG_UTF8 _ H))) Ho).
Defined.
